(** * Promise: a shallow embedding of the blocking rule engine

    The browser extension keeps named groups of blocked domains
    ([popup/popup.js]) and turns the websites of the active groups into
    match patterns of one request listener ([background/background.js]).

    Conventions of the embedding.
    - A JavaScript string is a [string]; every character stands for one
      code unit below 256.
    - The module-level variables of a script ([groups],
      [currentListener]) and the parts of the browser the script talks to
      (local storage, the registered request listeners, the popup's
      document) are the fields of a state record that every function takes
      and returns.
    - A function of the popup that changes the state returns an
      [outcome]: the state at the point where it returned or where an
      exception left it. A function without effect that can raise returns
      an [option].
    - An array index is a [Z], because [findIndex] and [indexOf] answer
      [-1] and [splice] gives a negative start a meaning. *)

From Stdlib Require Import String Ascii List ZArith Bool Arith Lia.
Import ListNotations.

Open Scope string_scope.
Open Scope list_scope.

(** ** Groups *)

(** The object literal [{ title, websites: [], active: true, expanded: true }]
    of [addGroup]; [active] is read by the background script. *)
Record Group := mkGroup {
  title : string;
  websites : list string;
  active : bool;
  expanded : bool
}.

(** ** Arrays *)

Module JsArray.

Section Ops.
Context {A : Type}.

(** [arr.findIndex(p)]: the first index whose element satisfies [p], or -1. *)
Fixpoint findIndexFrom (p : A -> bool) (i : Z) (arr : list A) : Z :=
  match arr with
  | [] => -1
  | x :: rest => if p x then i else findIndexFrom p (i + 1) rest
  end.

Definition findIndex (p : A -> bool) (arr : list A) : Z := findIndexFrom p 0 arr.

(** [arr[i]]: [None] stands for [undefined] (negative or past the end). *)
Definition get (arr : list A) (i : Z) : option A :=
  if (i <? 0)%Z then None else nth_error arr (Z.to_nat i).

(** The relative start of [splice], [slice] and the like: a negative start
    counts from the end and is clamped to 0, a start past the end is the
    length. *)
Definition relativeStart (len start : Z) : Z :=
  if (start <? 0)%Z then Z.max (len + start) 0 else Z.min start len.

(** [arr.splice(start, 1)]: the array without the element at the relative
    start, if there is one. *)
Definition splice1 (arr : list A) (start : Z) : list A :=
  let k := Z.to_nat (relativeStart (Z.of_nat (length arr)) start) in
  firstn k arr ++ skipn (S k) arr.

(** [arr.slice(start)] *)
Definition sliceFrom (arr : list A) (start : Z) : list A :=
  skipn (Z.to_nat (relativeStart (Z.of_nat (length arr)) start)) arr.

(** [arr.push(x)] *)
Definition push (arr : list A) (x : A) : list A := arr ++ [x].

(** [arr[i] = x] for an index inside the array (the scripts write inside
    only). *)
Fixpoint set (arr : list A) (i : nat) (x : A) : list A :=
  match arr, i with
  | [], _ => []
  | _ :: rest, O => x :: rest
  | y :: rest, S j => y :: set rest j x
  end.

End Ops.

(** [arr.includes(x)] and [arr.indexOf(x)] on an array of strings. *)
Definition includes (arr : list string) (x : string) : bool :=
  existsb (String.eqb x) arr.

Definition indexOf (arr : list string) (x : string) : Z :=
  findIndex (String.eqb x) arr.

End JsArray.

(** ** background/background.js *)

Module Background.

(** The two template literals of [urlPatterns]. *)
Definition exactPattern (site : string) : string := "*://" ++ site ++ "/*".
Definition subdomainPattern (site : string) : string := "*://*." ++ site ++ "/*".

Definition activeGroups (groups : list Group) : list Group := filter active groups.

(** [activeGroups.flatMap(group => group.websites)] *)
Definition activeWebsites (groups : list Group) : list string :=
  flat_map websites (activeGroups groups).

(** [websites.flatMap((site) => [..., ...])] *)
Definition urlPatterns (sites : list string) : list string :=
  flat_map (fun site => [exactPattern site; subdomainPattern site]) sites.

(** The pattern list that [loadAndBlockWebsites] derives from the stored
    groups. *)
Definition compile (groups : list Group) : list string :=
  urlPatterns (activeWebsites groups).

(** What the script asks of the browser, oldest call first. A listener is a
    closure; its identity is the number of the allocation that made it. *)
Inductive call :=
| RemoveListener (listener : nat)
| AddListener (listener : nat) (urls : list string)
| ConsoleLog (msg : string).

Record State := mkState {
  currentListener : option nat;         (* let currentListener = null *)
  closures : nat;                       (* closures made so far *)
  registered : list (nat * list string);(* webRequest.onBeforeRequest *)
  calls : list call
}.

Definition initial : State := mkState None 0 [] [].

(** [browser.webRequest.onBeforeRequest.removeListener(l)] *)
Definition removeListener (l : nat) (st : State) : State :=
  mkState (currentListener st) (closures st)
          (filter (fun r => negb (Nat.eqb (fst r) l)) (registered st))
          (calls st ++ [RemoveListener l]).

(** [browser.webRequest.onBeforeRequest.addListener(l, { urls }, ['blocking'])] *)
Definition addListener (l : nat) (urls : list string) (st : State) : State :=
  mkState (currentListener st) (closures st)
          (registered st ++ [(l, urls)])
          (calls st ++ [AddListener l urls]).

Definition consoleLog (msg : string) (st : State) : State :=
  mkState (currentListener st) (closures st) (registered st)
          (calls st ++ [ConsoleLog msg]).

Definition setCurrentListener (l : option nat) (st : State) : State :=
  mkState l (closures st) (registered st) (calls st).

(** [currentListener = (details) => ...]: a new closure each time. *)
Definition newListener (st : State) : nat * State :=
  (closures st,
   mkState (Some (closures st)) (S (closures st)) (registered st) (calls st)).

(** The callback of [browser.storage.local.get('groups').then(...)];
    [stored] is [data.groups], [None] when the key is absent. *)
Definition loadAndBlockWebsites (stored : option (list Group)) (st : State) : State :=
  let groups := match stored with Some gs => gs | None => [] end in
  let websites := activeWebsites groups in
  if (0 <? length websites)%nat then
    let urlPatterns := urlPatterns websites in
    let st1 := match currentListener st with
               | Some l => removeListener l st
               | None => st
               end in
    let '(l, st2) := newListener st1 in
    addListener l urlPatterns st2
  else
    let st1 := consoleLog "No websites to block." st in
    match currentListener st1 with
    | Some l => setCurrentListener None (removeListener l st1)
    | None => st1
    end.

(** The listener of [browser.storage.onChanged]. *)
Definition onChanged (area : string) (changesGroups : bool)
           (stored : option (list Group)) (st : State) : State :=
  if (area =? "local") && changesGroups then loadAndBlockWebsites stored st else st.

(** The states of the rule machine, read off the script's state. *)
Inductive RuleState :=
| Uninstalled
| Installed (patterns : list string).

Definition ruleState (st : State) : RuleState :=
  match currentListener st with
  | None => Uninstalled
  | Some l =>
      match find (fun r => Nat.eqb (fst r) l) (registered st) with
      | Some r => Installed (snd r)
      | None => Uninstalled
      end
  end.

(** Between two loads at most one listener is registered, and it is the
    current one. *)
Definition oneListener (st : State) : Prop :=
  (currentListener st = None /\ registered st = [])
  \/ (exists l patterns,
         currentListener st = Some l
         /\ registered st = [(l, patterns)]
         /\ patterns <> []).

(** The states that the script can be in: it starts with a load and runs
    one more for every change of the stored groups. *)
Inductive reachable : State -> Prop :=
| reachable_initial : reachable initial
| reachable_load stored st :
    reachable st -> reachable (loadAndBlockWebsites stored st).

End Background.

(** ** Strings *)

Module JsString.

(** White space and line terminators below 256: TAB, LF, VT, FF, CR, SP,
    NBSP. *)
Definition isWhiteSpace (c : ascii) : bool :=
  let n := nat_of_ascii c in
  ((9 <=? n) && (n <=? 13) || (n =? 32) || (n =? 160))%nat.

Fixpoint trimStart (s : string) : string :=
  match s with
  | EmptyString => EmptyString
  | String c rest => if isWhiteSpace c then trimStart rest else s
  end.

Fixpoint trimEnd (s : string) : string :=
  match s with
  | EmptyString => EmptyString
  | String c rest =>
      match trimEnd rest with
      | EmptyString => if isWhiteSpace c then EmptyString else String c EmptyString
      | kept => String c kept
      end
  end.

(** [s.trim()] *)
Definition trim (s : string) : string := trimEnd (trimStart s).

(** [s.includes(sub)] *)
Fixpoint includes (s sub : string) : bool :=
  String.prefix sub s ||
  match s with
  | EmptyString => false
  | String _ rest => includes rest sub
  end.

(** [s.split(sep)] for a separator of one character: never an empty array. *)
Fixpoint split (s : string) (sep : ascii) : list string :=
  match s with
  | EmptyString => [EmptyString]
  | String c rest =>
      if Ascii.eqb c sep then EmptyString :: split rest sep
      else match split rest sep with
           | part :: parts => String c part :: parts
           | [] => [String c EmptyString]
           end
  end.

(** [parts.join(sep)] *)
Definition join (parts : list string) (sep : string) : string :=
  String.concat sep parts.

Fixpoint forallb (p : ascii -> bool) (s : string) : bool :=
  match s with
  | EmptyString => true
  | String c rest => p c && forallb p rest
  end.

Fixpoint existsb (p : ascii -> bool) (s : string) : bool :=
  match s with
  | EmptyString => false
  | String c rest => p c || existsb p rest
  end.

Fixpoint map (f : ascii -> ascii) (s : string) : string :=
  match s with
  | EmptyString => EmptyString
  | String c rest => String (f c) (map f rest)
  end.

Definition inRange (lo hi c : ascii) : bool :=
  ((nat_of_ascii lo <=? nat_of_ascii c) && (nat_of_ascii c <=? nat_of_ascii hi))%nat.

Definition isLower (c : ascii) : bool := inRange "a" "z" c.
Definition isUpper (c : ascii) : bool := inRange "A" "Z" c.
Definition isDigit (c : ascii) : bool := inRange "0" "9" c.
Definition isAlpha (c : ascii) : bool := isLower c || isUpper c.

End JsString.

(** ** Regular expressions *)

Module RegExp.

(** The operators that the pattern of [isValidUrl] is written with. A
    character class is its membership test. *)
Inductive regex :=
| Fail
| Eps
| Class (p : ascii -> bool)
| Seq (r1 r2 : regex)
| Alt (r1 r2 : regex)
| Star (r : regex).

(** [r+] *)
Definition Plus (r : regex) : regex := Seq r (Star r).

(** [r{n}] *)
Fixpoint Times (r : regex) (n : nat) : regex :=
  match n with
  | O => Eps
  | S k => Seq r (Times r k)
  end.

(** [r{0,n}] *)
Fixpoint UpTo (r : regex) (n : nat) : regex :=
  match n with
  | O => Eps
  | S k => Alt Eps (Seq r (UpTo r k))
  end.

(** [r{lo,hi}] *)
Definition Range (r : regex) (lo hi : nat) : regex :=
  Seq (Times r lo) (UpTo r (hi - lo)).

Fixpoint nullable (r : regex) : bool :=
  match r with
  | Fail => false
  | Eps => true
  | Class _ => false
  | Seq r1 r2 => nullable r1 && nullable r2
  | Alt r1 r2 => nullable r1 || nullable r2
  | Star _ => true
  end.

(** The residual of [r] after the character [c]. *)
Fixpoint deriv (c : ascii) (r : regex) : regex :=
  match r with
  | Fail => Fail
  | Eps => Fail
  | Class p => if p c then Eps else Fail
  | Seq r1 r2 =>
      if nullable r1 then Alt (Seq (deriv c r1) r2) (deriv c r2)
      else Seq (deriv c r1) r2
  | Alt r1 r2 => Alt (deriv c r1) (deriv c r2)
  | Star r1 => Seq (deriv c r1) (Star r1)
  end.

(** Whether [r] matches the whole of [s]. *)
Fixpoint matches (r : regex) (s : string) : bool :=
  match s with
  | EmptyString => nullable r
  | String c rest => matches (deriv c r) rest
  end.

(** A pattern [/^(?!ahead)body$/]: the look-ahead is tried at the start of
    the input, the body has to consume all of it. *)
Record anchored := mkAnchored {
  notAhead : string;
  body : regex
}.

(** [pattern.test(s)] *)
Definition test (pattern : anchored) (s : string) : bool :=
  negb (String.prefix (notAhead pattern) s) && matches (body pattern) s.

(** The language of a regex: the strings it matches as a whole. *)
Inductive Matches : regex -> string -> Prop :=
| MatchEps : Matches Eps EmptyString
| MatchClass p c : p c = true -> Matches (Class p) (String c EmptyString)
| MatchSeq r1 r2 s1 s2 :
    Matches r1 s1 -> Matches r2 s2 -> Matches (Seq r1 r2) (s1 ++ s2)
| MatchAltL r1 r2 s : Matches r1 s -> Matches (Alt r1 r2) s
| MatchAltR r1 r2 s : Matches r2 s -> Matches (Alt r1 r2) s
| MatchStarNil r : Matches (Star r) EmptyString
| MatchStarApp r s1 s2 :
    Matches r s1 -> Matches (Star r) s2 -> Matches (Star r) (s1 ++ s2).

End RegExp.

(** ** The URL constructor *)

(** The fields of a [URL] object that the model keeps. *)
Record URL := mkURL {
  protocol : string;
  hostname : string;
  afterHost : string
}.

(** ** popup/popup.js: the domain normalizer *)

Section Normalizer.

(** [new URL(s)] of the browser; [None] when it throws a [TypeError]. *)
Variable newURL : string -> option URL.

(** [url.includes('://') ? url : `http://${url}`] *)
Definition withScheme (url : string) : string :=
  if JsString.includes url "://" then url else "http://" ++ url.

(** [[a-zA-Z0-9-_]]: after the range [0-9] the hyphen and the underscore
    stand for themselves. *)
Definition labelChar (c : ascii) : bool :=
  JsString.isLower c || JsString.isUpper c || JsString.isDigit c
  || Ascii.eqb c "-" || Ascii.eqb c "_".

Definition dotChar (c : ascii) : bool := Ascii.eqb c ".".

(** [[a-zA-Z]] *)
Definition tldChar (c : ascii) : bool := JsString.isLower c || JsString.isUpper c.

(** [/^(?!:\/\/)([a-zA-Z0-9-_]+\.)+[a-zA-Z]{2,11}$/] *)
Definition domainPattern : RegExp.anchored :=
  RegExp.mkAnchored "://"
    (RegExp.Seq
       (RegExp.Plus (RegExp.Seq (RegExp.Plus (RegExp.Class labelChar))
                                (RegExp.Class dotChar)))
       (RegExp.Range (RegExp.Class tldChar) 2 11)).

Definition isValidUrl (url : string) : bool :=
  match newURL (withScheme url) with
  | Some parsedUrl =>
      let hostname := hostname parsedUrl in
      RegExp.test domainPattern hostname
  | None => false
  end.

(** [None]: the [TypeError] of [new URL] leaves the function. *)
Definition getBaseUrl (url : string) : option string :=
  match newURL (withScheme url) with
  | Some parsedUrl =>
      let hostnameParts := JsString.split (hostname parsedUrl) "." in
      let baseUrl := JsString.join (JsArray.sliceFrom hostnameParts (-2)) "." in
      Some baseUrl
  | None => None
  end.

End Normalizer.

(** A label of the domain pattern: one or more letters, digits, hyphens or
    underscores. *)
Definition isLabel (l : string) : Prop :=
  l <> "" /\ JsString.forallb labelChar l = true.

(** A top-level segment: 2 to 11 letters. *)
Definition isTld (t : string) : Prop :=
  JsString.forallb tldChar t = true /\ 2 <= String.length t <= 11.

(** A label of a hostname holds no dot. *)
Definition dotFree (label : string) : Prop :=
  JsString.existsb dotChar label = false.

(** One or more labels, each followed by a dot, then a top-level segment. *)
Definition DomainShape (host : string) : Prop :=
  exists labels tld,
    labels <> [] /\ Forall isLabel labels /\ isTld tld
    /\ host = JsString.join (labels ++ [tld]) ".".

(** ** A model of the browser's URL parser *)

(** The basic URL parser of the URL Standard, for an input without a base
    URL, as far as the host: the schemes [http], [https], [ws], [wss] and
    [ftp] with a host that is an ASCII domain. Inputs that need another
    part of the standard ([file:] and non-special schemes, IP addresses,
    percent escapes, non-ASCII or punycode labels) are answered
    [Unmodelled].  The statements about all inputs below are made for an
    arbitrary [newURL] and do not depend on this model. *)
Module UrlStandard.

Inductive result :=
| Parsed (url : URL)
| Failure
| Unmodelled.

Definition code (c : ascii) : nat := nat_of_ascii c.

Definition isC0ControlOrSpace (c : ascii) : bool := (code c <=? 32)%nat.

Definition isTabOrNewline (c : ascii) : bool :=
  ((code c =? 9) || (code c =? 10) || (code c =? 13))%nat.

Fixpoint dropWhile (p : ascii -> bool) (s : string) : string :=
  match s with
  | EmptyString => EmptyString
  | String c rest => if p c then dropWhile p rest else s
  end.

Fixpoint dropWhileEnd (p : ascii -> bool) (s : string) : string :=
  match s with
  | EmptyString => EmptyString
  | String c rest =>
      match dropWhileEnd p rest with
      | EmptyString => if p c then EmptyString else String c EmptyString
      | kept => String c kept
      end
  end.

Fixpoint remove (p : ascii -> bool) (s : string) : string :=
  match s with
  | EmptyString => EmptyString
  | String c rest => if p c then remove p rest else String c (remove p rest)
  end.

(** The longest prefix whose characters satisfy [p], and the rest. *)
Fixpoint span (p : ascii -> bool) (s : string) : string * string :=
  match s with
  | EmptyString => (EmptyString, EmptyString)
  | String c rest =>
      if p c then let '(taken, others) := span p rest in (String c taken, others)
      else (EmptyString, s)
  end.

Definition toLower (c : ascii) : ascii :=
  if JsString.isUpper c then ascii_of_nat (code c + 32) else c.

Definition oneOf (chars : string) (c : ascii) : bool :=
  JsString.existsb (Ascii.eqb c) chars.

Definition schemeChar (c : ascii) : bool :=
  JsString.isAlpha c || JsString.isDigit c || oneOf "+-." c.

(** The special schemes that the model covers. *)
Definition coveredScheme (scheme : string) : bool :=
  List.existsb (String.eqb scheme) ["http"; "https"; "ws"; "wss"; "ftp"].

Definition forbiddenDomainCodePoint (c : ascii) : bool :=
  isC0ControlOrSpace c || (code c =? 127)%nat || oneOf "#/:<>?@[\]^|%" c.

Fixpoint decimal (acc : N) (digits : string) : N :=
  match digits with
  | EmptyString => acc
  | String c rest => decimal (acc * 10 + N.of_nat (code c - 48)) rest
  end.

Definition isHexDigit (c : ascii) : bool :=
  JsString.isDigit c || JsString.inRange "a" "f" c || JsString.inRange "A" "F" c.

(** The last label reads as a number, so the IPv4 parser takes over. *)
Definition endsInNumber (host : string) : bool :=
  let parts := rev (JsString.split host ".") in
  let parts := match parts with
               | EmptyString :: (_ :: _ as more) => more
               | _ => parts
               end in
  match parts with
  | EmptyString :: _ => false
  | String "0" (String x digits) :: _ =>
      if oneOf "xX" x then JsString.forallb isHexDigit digits
      else JsString.forallb JsString.isDigit (String x digits)
  | label :: _ => JsString.forallb JsString.isDigit label
  | [] => false
  end.

(** The host parser on a host of a special scheme that is not in square
    brackets; the outer [None] says that the model has no answer. *)
Definition parseHost (input : string) : option (option string) :=
  if oneOf input "%"
     || JsString.existsb (fun c => (128 <=? code c)%nat) input then None
  else
    let asciiDomain := JsString.map toLower input in
    if List.existsb (String.prefix "xn--") (JsString.split asciiDomain ".") then None
    else if JsString.existsb forbiddenDomainCodePoint asciiDomain then Some None
    else if endsInNumber asciiDomain then None
    else Some (Some asciiDomain).

Definition parse (input : string) : result :=
  let input := dropWhileEnd isC0ControlOrSpace (dropWhile isC0ControlOrSpace input) in
  let input := remove isTabOrNewline input in
  match input with
  | EmptyString => Failure
  | String c _ =>
      if negb (JsString.isAlpha c) then Failure
      else
        let '(scheme, afterScheme) := span schemeChar input in
        match afterScheme with
        | String ":" remaining =>
            let scheme := JsString.map toLower scheme in
            if negb (coveredScheme scheme) then Unmodelled
            else
              let remaining := dropWhile (oneOf "/\") remaining in
              let '(authority, afterHost) :=
                span (fun c => negb (oneOf "/\?#" c)) remaining in
              let hostport := last (JsString.split authority "@") authority in
              let '(host, afterHostname) :=
                span (fun c => negb (Ascii.eqb c ":")) hostport in
              let port := match afterHostname with
                          | String _ digits => digits
                          | EmptyString => EmptyString
                          end in
              if String.prefix "[" hostport then Unmodelled
              else if (host =? "")%string then Failure
              else if negb (JsString.forallb JsString.isDigit port) then Failure
              else if (65535 <? decimal 0 port)%N then Failure
              else
                match parseHost host with
                | None => Unmodelled
                | Some None => Failure
                | Some (Some asciiDomain) =>
                    Parsed (mkURL (scheme ++ ":") asciiDomain afterHost)
                end
        | _ => Failure
        end
  end.

(** The constructor with this parser behind it; an input outside the
    model is answered like a failure. *)
Definition newURL (input : string) : option URL :=
  match parse input with
  | Parsed url => Some url
  | Failure | Unmodelled => None
  end.

End UrlStandard.

(** ** Stored values *)

Module Js.

#[local] Set Warnings "-register-all".

(** The values that [browser.storage.local] can hold under a key. *)
Inductive value :=
| Undefined
| Null
| Bool (b : bool)
| Number (n : Z)
| Str (s : string)
| Array (items : list value)
| Object (props : list (string * value)).

(** [ToBoolean], as [||] applies it. *)
Definition truthy (v : value) : bool :=
  match v with
  | Undefined | Null => false
  | Bool b => b
  | Number n => negb (n =? 0)%Z
  | Str s => negb (s =? "")%string
  | Array _ | Object _ => true
  end.

(** [v != undefined] *)
Definition notUndefined (v : value) : bool :=
  match v with
  | Undefined | Null => false
  | _ => true
  end.

(** [o.key] on an object; [Undefined] when the object has no such property. *)
Definition getProp (o : value) (key : string) : value :=
  match o with
  | Object props =>
      match find (fun kv => (fst kv =? key)%string) props with
      | Some kv => snd kv
      | None => Undefined
      end
  | _ => Undefined
  end.

(** A group as the storage holds it. *)
Definition ofGroup (g : Group) : value :=
  Object [("title", Str (title g));
          ("websites", Array (map Str (websites g)));
          ("active", Bool (active g));
          ("expanded", Bool (expanded g))].

Definition ofGroups (gs : list Group) : value := Array (map ofGroup gs).

Fixpoint traverse {A B : Type} (f : A -> option B) (l : list A) : option (list B) :=
  match l with
  | [] => Some []
  | x :: rest =>
      match f x, traverse f rest with
      | Some y, Some ys => Some (y :: ys)
      | _, _ => None
      end
  end.

Definition toStr (v : value) : option string :=
  match v with Str s => Some s | _ => None end.

(** The group that a stored value stands for, if it has the four fields
    with the types of the data model. *)
Definition toGroup (v : value) : option Group :=
  match getProp v "title", getProp v "websites",
        getProp v "active", getProp v "expanded" with
  | Str t, Array ws, Bool a, Bool e =>
      match traverse toStr ws with
      | Some sites => Some (mkGroup t sites a e)
      | None => None
      end
  | _, _, _, _ => None
  end.

Definition toGroups (v : value) : option (list Group) :=
  match v with
  | Array items => traverse toGroup items
  | _ => None
  end.

(** A stored value is malformed when it is not a sequence of groups. *)
Definition malformed (v : value) : bool :=
  match toGroups v with
  | Some _ => false
  | None => true
  end.

End Js.

(** ** popup/popup.js: the group store *)

Module Popup.

(** A group's [div] in the popup: the texts of the items of its
    [.websites] list, [None] when the [div] has no such list (a collapsed
    group). *)
Record GroupDiv := mkGroupDiv {
  websiteItems : option (list string)
}.

Record State := mkState {
  groups : list Group;                  (* let groups = [] *)
  storage : option Js.value;            (* the key 'groups' of storage.local *)
  elements : nat -> GroupDiv;           (* the group divs, by reference *)
  created : nat;                        (* group divs created so far *)
  children : list nat;                  (* groupsContainer.children *)
  errorMessage : option (string * bool);(* text and isError of #error-message *)
  console : list string
}.

Definition initial : State :=
  mkState [] None (fun _ => mkGroupDiv None) 0 [] None [].

(** [Thrown]: an exception left the function (the promise of an [async]
    function is rejected); the state is the one at that point. *)
Inductive outcome :=
| Returned (st : State)
| Thrown (st : State).

Definition stateOf (o : outcome) : State :=
  match o with
  | Returned st => st
  | Thrown st => st
  end.

Definition setGroups (gs : list Group) (st : State) : State :=
  mkState gs (storage st) (elements st) (created st) (children st)
          (errorMessage st) (console st).

Definition setStorage (v : option Js.value) (st : State) : State :=
  mkState (groups st) v (elements st) (created st) (children st)
          (errorMessage st) (console st).

Definition setElement (ref : nat) (d : GroupDiv) (st : State) : State :=
  mkState (groups st) (storage st)
          (fun r => if Nat.eqb r ref then d else elements st r)
          (created st) (children st) (errorMessage st) (console st).

Definition setChildren (refs : list nat) (st : State) : State :=
  mkState (groups st) (storage st) (elements st) (created st) refs
          (errorMessage st) (console st).

Definition consoleLog (msg : string) (st : State) : State :=
  mkState (groups st) (storage st) (elements st) (created st) (children st)
          (errorMessage st) (console st ++ [msg]).

(** [showMessage(message, isError = true)] *)
Definition showMessage (message : string) (isError : bool) (st : State) : State :=
  mkState (groups st) (storage st) (elements st) (created st) (children st)
          (Some (message, isError)) (console st).

(** [document.createElement('div')] for a group. *)
Definition createGroupDiv (d : GroupDiv) (st : State) : nat * State :=
  (created st,
   mkState (groups st) (storage st)
           (fun r => if Nat.eqb r (created st) then d else elements st r)
           (S (created st)) (children st) (errorMessage st) (console st)).

(** [browser.storage.local.set({ 'groups': groups })] *)
Definition saveGroups (st : State) : State :=
  setStorage (Some (Js.ofGroups (groups st))) st.

(** [browser.storage.local.get('groups')]: an object with the key when it
    is stored. *)
Definition storageGet (st : State) : Js.value :=
  match storage st with
  | Some v => Js.Object [("groups", v)]
  | None => Js.Object []
  end.

Definition loadGroups (st : State) : Js.value :=
  let data := storageGet st in
  if Js.notUndefined data then
    let stored := Js.getProp data "groups" in
    if Js.truthy stored then stored else Js.Array []
  else Js.Undefined.

(** [displayGroup(group)]: the list of websites is built for an expanded
    group only. *)
Definition displayGroup (group : Group) (st : State) : State :=
  let '(groupDiv, st1) :=
    createGroupDiv
      (mkGroupDiv (if expanded group then Some (websites group) else None)) st in
  setChildren (children st1 ++ [groupDiv]) st1.

Definition hasTitle (t : string) (group : Group) : bool := (title group =? t)%string.

(** [addGroup], with [typed] the value of the input [#newGroupTitle]. *)
Definition addGroup (typed : string) (st : State) : outcome :=
  let title := JsString.trim typed in
  if negb (title =? "")%string then
    let groupExists := existsb (hasTitle title) (groups st) in
    if negb groupExists then
      let group := mkGroup title [] true true in
      let st1 := setGroups (JsArray.push (groups st) group) st in
      let st2 := displayGroup group st1 in
      Returned (saveGroups st2)
    else
      Returned (showMessage "Group already exists" false st)
  else Returned st.

Definition removeGroup (groupTitle : string) (st : State) : outcome :=
  let groupIndex := JsArray.findIndex (hasTitle groupTitle) (groups st) in
  let st1 := setGroups (JsArray.splice1 (groups st) groupIndex) st in
  match JsArray.get (children st1) groupIndex with
  | None => Thrown st1
  | Some _ =>
      let st2 := setChildren (JsArray.splice1 (children st1) groupIndex) st1 in
      Returned (saveGroups st2)
  end.

Definition setWebsites (ws : list string) (group : Group) : Group :=
  mkGroup (title group) ws (active group) (expanded group).

Definition addWebsiteToGroup (website groupTitle : string) (groupDiv : nat)
           (st : State) : outcome :=
  let groupIndex := JsArray.findIndex (hasTitle groupTitle) (groups st) in
  match JsArray.get (groups st) groupIndex with
  | None => Thrown st
  | Some group =>
      if negb (JsArray.includes (websites group) website) then
        let group1 := setWebsites (JsArray.push (websites group) website) group in
        let st1 := setGroups (JsArray.set (groups st) (Z.to_nat groupIndex) group1) st in
        match websiteItems (elements st1 groupDiv) with
        | None => Thrown st1
        | Some items =>
            let st2 := setElement groupDiv (mkGroupDiv (Some (items ++ [website]))) st1 in
            Returned (saveGroups st2)
        end
      else Returned (consoleLog "Website already exists in the group" st)
  end.

Definition removeWebsiteFromGroup (groupTitle wesbite : string) (st : State) : outcome :=
  let groupIndex := JsArray.findIndex (hasTitle groupTitle) (groups st) in
  match JsArray.get (groups st) groupIndex with
  | None => Thrown st
  | Some group =>
      let websiteIndex := JsArray.indexOf (websites group) wesbite in
      let group1 := setWebsites (JsArray.splice1 (websites group) websiteIndex) group in
      let st1 := setGroups (JsArray.set (groups st) (Z.to_nat groupIndex) group1) st in
      match JsArray.get (children st1) groupIndex with
      | None => Thrown st1
      | Some groupDiv =>
          match websiteItems (elements st1 groupDiv) with
          | None => Thrown st1
          | Some items =>
              match JsArray.get items websiteIndex with
              | None => Thrown st1
              | Some _ =>
                  let st2 :=
                    setElement groupDiv
                      (mkGroupDiv (Some (JsArray.splice1 items websiteIndex))) st1 in
                  Returned (saveGroups st2)
              end
          end
      end
  end.

Definition toggleGroupActivity (groupTitle : string) (st : State) : outcome :=
  let groupIndex := JsArray.findIndex (hasTitle groupTitle) (groups st) in
  match JsArray.get (groups st) groupIndex with
  | None => Thrown st
  | Some group =>
      let group1 := mkGroup (title group) (websites group)
                            (negb (active group)) (expanded group) in
      Returned (saveGroups
                  (setGroups (JsArray.set (groups st) (Z.to_nat groupIndex) group1) st))
  end.

Section WithURL.

Variable newURL : string -> option URL.

(** [addWebsiteToThisGroup] of [createBottomRow(group, groupDiv)], with
    [typed] the value of the group's website input. *)
Definition addWebsiteToThisGroup (group : Group) (groupDiv : nat) (typed : string)
           (st : State) : outcome :=
  let website := JsString.trim typed in
  if negb (website =? "")%string then
    if isValidUrl newURL website then
      match getBaseUrl newURL website with
      | Some baseUrl => addWebsiteToGroup baseUrl (title group) groupDiv st
      | None => Thrown st
      end
    else Returned (showMessage "Invalid URL" true st)
  else Returned st.

End WithURL.

(** [displayAllGroups(groups)]: the container is emptied and the groups
    are displayed in order. *)
Definition displayAllGroups (groups : list Group) (st : State) : State :=
  fold_left (fun st1 group => displayGroup group st1) groups (setChildren [] st).

(** The listener of [DOMContentLoaded]; [loaded] is the array of groups
    that [await loadGroups()] gave. *)
Definition onDOMContentLoaded (loaded : list Group) (st : State) : State :=
  displayAllGroups loaded (setGroups loaded st).

(** The calls that change the groups. *)
Inductive operation :=
| AddGroup (typed : string)
| RemoveGroup (groupTitle : string)
| AddWebsiteToGroup (website groupTitle : string) (groupDiv : nat)
| RemoveWebsiteFromGroup (groupTitle website : string)
| ToggleGroupActivity (groupTitle : string).

Definition perform (op : operation) (st : State) : outcome :=
  match op with
  | AddGroup typed => addGroup typed st
  | RemoveGroup groupTitle => removeGroup groupTitle st
  | AddWebsiteToGroup website groupTitle groupDiv =>
      addWebsiteToGroup website groupTitle groupDiv st
  | RemoveWebsiteFromGroup groupTitle website =>
      removeWebsiteFromGroup groupTitle website st
  | ToggleGroupActivity groupTitle => toggleGroupActivity groupTitle st
  end.

(** The storage holds the groups that are in memory. *)
Definition mirrored (st : State) : Prop :=
  storage st = Some (Js.ofGroups (groups st)).

(** No two groups have the same title. *)
Definition uniqueTitles (groups : list Group) : Prop := NoDup (map title groups).

(** No group holds a website twice. *)
Definition uniqueWebsites (groups : list Group) : Prop :=
  Forall (fun group => NoDup (websites group)) groups.

(** The [div] shows the group: its list holds the group's websites when
    the group is expanded and is missing when it is not. *)
Definition shows (st : State) (group : Group) (groupDiv : nat) : Prop :=
  websiteItems (elements st groupDiv)
  = if expanded group then Some (websites group) else None.

(** The container shows the groups in memory, one [div] for each, in
    order. *)
Definition displayed (st : State) : Prop :=
  Forall2 (shows st) (groups st) (children st)
  /\ NoDup (children st)
  /\ Forall (fun groupDiv => groupDiv < created st) (children st).

End Popup.

(** * Properties *)

(** ** The pattern list of the background script *)

Lemma in_urlPatterns (sites : list string) (p : string) :
  In p (Background.urlPatterns sites) <->
  exists w, In w sites /\
            (p = Background.exactPattern w \/ p = Background.subdomainPattern w).
Proof.
  unfold Background.urlPatterns. rewrite in_flat_map. split.
  - intros (w & Hw & Hp). exists w. split; [assumption|].
    simpl in Hp. destruct Hp as [<- | [<- | []]]; auto.
  - intros (w & Hw & Hp). exists w. split; [assumption|].
    simpl. destruct Hp as [-> | ->]; auto.
Qed.

Lemma in_activeWebsites (groups : list Group) (w : string) :
  In w (Background.activeWebsites groups) <->
  exists g, In g groups /\ active g = true /\ In w (websites g).
Proof.
  unfold Background.activeWebsites, Background.activeGroups.
  rewrite in_flat_map. split.
  - intros (g & Hg & Hw). apply filter_In in Hg. exists g. tauto.
  - intros (g & Hg & Ha & Hw). exists g. rewrite filter_In. tauto.
Qed.

Lemma length_urlPatterns (sites : list string) :
  length (Background.urlPatterns sites) = 2 * length sites.
Proof.
  induction sites as [|w sites IH]; [reflexivity|].
  change (Background.urlPatterns (w :: sites))
    with (Background.exactPattern w :: Background.subdomainPattern w
          :: Background.urlPatterns sites).
  simpl length. rewrite IH. simpl. lia.
Qed.

Lemma compile_app (gs1 gs2 : list Group) :
  Background.compile (gs1 ++ gs2) = Background.compile gs1 ++ Background.compile gs2.
Proof.
  unfold Background.compile, Background.urlPatterns, Background.activeWebsites,
    Background.activeGroups.
  now rewrite filter_app, !flat_map_app.
Qed.

Lemma compile_nil_iff (groups : list Group) :
  Background.compile groups = [] <-> Background.activeWebsites groups = [].
Proof.
  unfold Background.compile.
  destruct (Background.activeWebsites groups); simpl; split; congruence.
Qed.

(** C1, as stated, fails: the same website in two active groups gives each
    of its two patterns twice. *)
Lemma compile_keeps_duplicates :
  let groups := [mkGroup "Work" ["x.com"] true true;
                 mkGroup "Play" ["x.com"] true true] in
  Background.compile groups = ["*://x.com/*"; "*://*.x.com/*";
                               "*://x.com/*"; "*://*.x.com/*"]
  /\ ~ NoDup (Background.compile groups).
Proof.
  split; [reflexivity|].
  intros H. inversion H as [|p l Hnotin _]; subst.
  apply Hnotin. simpl. auto.
Qed.

(** C1 (amended): the compiled list holds exactly the exact and the
    subdomain pattern of every website of every active group, two entries
    for each occurrence of a website, nothing for an inactive group, in
    the order of the groups and of each group's websites, the exact
    pattern of a website right before its subdomain pattern; an
    occurrence in a second group adds its two entries again. *)
Theorem compile_patterns :
  (forall groups p,
      In p (Background.compile groups) <->
      exists g w, In g groups /\ active g = true /\ In w (websites g) /\
                  (p = Background.exactPattern w \/
                   p = Background.subdomainPattern w))
  /\ (forall groups,
         length (Background.compile groups)
         = 2 * length (Background.activeWebsites groups))
  /\ (forall gs1 gs2,
         Background.compile (gs1 ++ gs2)
         = Background.compile gs1 ++ Background.compile gs2)
  /\ Background.compile [] = []
  /\ (forall g gs,
         active g = false ->
         Background.compile (g :: gs) = Background.compile gs)
  /\ (forall t e gs,
         Background.compile (mkGroup t [] true e :: gs) = Background.compile gs)
  /\ (forall t w ws e gs,
         Background.compile (mkGroup t (w :: ws) true e :: gs)
         = ("*://" ++ w ++ "/*")%string :: ("*://*." ++ w ++ "/*")%string
           :: Background.compile (mkGroup t ws true e :: gs))
  /\ (forall groups i,
         nth_error (Background.compile groups) (2 * i)
         = option_map Background.exactPattern
                      (nth_error (Background.activeWebsites groups) i)
         /\ nth_error (Background.compile groups) (2 * i + 1)
            = option_map Background.subdomainPattern
                         (nth_error (Background.activeWebsites groups) i)).
Proof.
  split; [|split; [|split; [|split; [|split; [|split; [|split]]]]]].
  - intros groups p. unfold Background.compile. rewrite in_urlPatterns. split.
    + intros (w & Hw & Hp). apply in_activeWebsites in Hw.
      destruct Hw as (g & Hg & Ha & Hw). exists g, w. tauto.
    + intros (g & w & Hg & Ha & Hw & Hp). exists w. split; [|assumption].
      apply in_activeWebsites. exists g. tauto.
  - intros groups. apply length_urlPatterns.
  - apply compile_app.
  - reflexivity.
  - intros g gs Ha. unfold Background.compile, Background.activeWebsites,
      Background.activeGroups. cbn [filter]. now rewrite Ha.
  - reflexivity.
  - reflexivity.
  - intros groups. unfold Background.compile.
    induction (Background.activeWebsites groups) as [|w sites IH]; intros i.
    + simpl. rewrite !nth_error_nil. auto.
    + change (Background.urlPatterns (w :: sites))
        with (Background.exactPattern w :: Background.subdomainPattern w
              :: Background.urlPatterns sites).
      destruct i as [|i]; [split; reflexivity|].
      replace (2 * S i) with (S (S (2 * i))) by lia.
      replace (S (S (2 * i)) + 1) with (S (S (2 * i + 1))) by lia.
      cbn [nth_error]. apply IH.
Qed.

Lemma compile_patterns_witness :
  In "*://*.reddit.com/*"
     (Background.compile [mkGroup "Focus" ["reddit.com"] true true;
                          mkGroup "Later" ["example.com"] false true])
  /\ length (Background.compile [mkGroup "Focus" ["reddit.com"] true true;
                                 mkGroup "Later" ["example.com"] false true]) = 2.
Proof.
  split.
  - apply (proj1 compile_patterns).
    exists (mkGroup "Focus" ["reddit.com"] true true), "reddit.com".
    simpl. auto.
  - apply (proj1 (proj2 compile_patterns)).
Defined.

(** ** The rule machine of the background script *)

Lemma urlPatterns_nonempty (sites : list string) :
  (0 <? length sites)%nat = true -> Background.urlPatterns sites <> [].
Proof.
  destruct sites; simpl; [discriminate|]. intros _. discriminate.
Qed.

Lemma filter_self_removed (l : nat) (patterns : list string) :
  filter (fun r : nat * list string => negb (Nat.eqb (fst r) l)) [(l, patterns)] = [].
Proof. simpl. now rewrite Nat.eqb_refl. Qed.

Lemma loadAndBlockWebsites_oneListener stored st :
  Background.oneListener st -> Background.oneListener (Background.loadAndBlockWebsites stored st).
Proof.
  intros Hst. unfold Background.loadAndBlockWebsites.
  set (sites := Background.activeWebsites _).
  destruct (0 <? length sites)%nat eqn:Hlen.
  - right. apply urlPatterns_nonempty in Hlen.
    destruct Hst as [[Hc Hr] | (l & ps & Hc & Hr & _)]; rewrite Hc; simpl.
    + exists (Background.closures st), (Background.urlPatterns sites).
      rewrite Hr. auto.
    + exists (Background.closures st), (Background.urlPatterns sites).
      rewrite Hr, filter_self_removed. auto.
  - left. simpl.
    destruct Hst as [[Hc Hr] | (l & ps & Hc & Hr & _)]; rewrite Hc; simpl.
    + auto.
    + rewrite Hr, filter_self_removed. auto.
Qed.

Lemma reachable_oneListener st : Background.reachable st -> Background.oneListener st.
Proof.
  induction 1 as [|stored st _ IH].
  - left. split; reflexivity.
  - now apply loadAndBlockWebsites_oneListener.
Qed.

Lemma ruleState_installed st patterns :
  Background.oneListener st ->
  Background.ruleState st = Background.Installed patterns ->
  exists l, Background.currentListener st = Some l
            /\ Background.registered st = [(l, patterns)].
Proof.
  unfold Background.ruleState.
  intros [[Hc Hr] | (l & ps & Hc & Hr & _)]; rewrite Hc.
  - discriminate.
  - rewrite Hr. simpl. rewrite Nat.eqb_refl. simpl.
    intros [= <-]. exists l. auto.
Qed.

(** C2, as stated, fails: a change event that recomputes the installed
    patterns removes the registered listener and registers another one. *)
Lemma reinstall_on_equal_patterns :
  let stored := Some [mkGroup "Focus" ["reddit.com"] true true] in
  let patterns := ["*://reddit.com/*"; "*://*.reddit.com/*"] in
  let st := Background.loadAndBlockWebsites stored Background.initial in
  let st' := Background.loadAndBlockWebsites stored st in
  Background.reachable st
  /\ Background.ruleState st = Background.Installed patterns
  /\ Background.compile [mkGroup "Focus" ["reddit.com"] true true] = patterns
  /\ Background.calls st'
     = Background.calls st
       ++ [Background.RemoveListener 0; Background.AddListener 1 patterns]
  /\ Background.registered st = [(0, patterns)]
  /\ Background.registered st' = [(1, patterns)]
  /\ st' <> st.
Proof.
  repeat split; try reflexivity.
  - apply Background.reachable_load, Background.reachable_initial.
  - discriminate.
Qed.

(** C2 (amended): in state [Installed P], a change event that recomputes
    a non-empty pattern list, equal to [P] or not, removes the current
    listener and registers a new one for the recomputed list; the machine
    is in [Installed] of that list afterwards, so for a list equal to [P]
    the installed patterns are the same while the rule has been
    replaced. *)
Theorem change_event_reinstalls (st : Background.State)
        (P : list string) (groups : list Group) :
  Background.reachable st ->
  Background.ruleState st = Background.Installed P ->
  Background.compile groups <> [] ->
  let st' := Background.loadAndBlockWebsites (Some groups) st in
  exists l,
    Background.currentListener st = Some l
    /\ Background.calls st'
       = Background.calls st
         ++ [Background.RemoveListener l;
             Background.AddListener (Background.closures st)
                                    (Background.compile groups)]
    /\ Background.currentListener st' = Some (Background.closures st)
    /\ Background.registered st'
       = [(Background.closures st, Background.compile groups)]
    /\ Background.ruleState st' = Background.Installed (Background.compile groups).
Proof.
  intros Hreach Hinst Hne st'.
  apply reachable_oneListener in Hreach.
  destruct (ruleState_installed st P Hreach Hinst) as (l & Hc & Hr).
  exists l. split; [assumption|].
  assert (Hlen : (0 <? length (Background.activeWebsites groups))%nat = true).
  { apply Nat.ltb_lt. destruct (Background.activeWebsites groups) eqn:E.
    - exfalso. apply Hne. now apply compile_nil_iff.
    - simpl. lia. }
  subst st'. unfold Background.loadAndBlockWebsites.
  rewrite Hlen, Hc. unfold Background.ruleState. simpl.
  rewrite Hr, filter_self_removed, <- app_assoc. simpl.
  rewrite Nat.eqb_refl. repeat split; reflexivity.
Qed.

Lemma change_event_reinstalls_witness :
  let groups := [mkGroup "Focus" ["reddit.com"] true true] in
  let st := Background.loadAndBlockWebsites (Some groups) Background.initial in
  exists l,
    Background.currentListener st = Some l
    /\ Background.calls (Background.loadAndBlockWebsites (Some groups) st)
       = Background.calls st
         ++ [Background.RemoveListener l;
             Background.AddListener (Background.closures st)
                                    (Background.compile groups)]
    /\ Background.currentListener (Background.loadAndBlockWebsites (Some groups) st)
       = Some (Background.closures st)
    /\ Background.registered (Background.loadAndBlockWebsites (Some groups) st)
       = [(Background.closures st, Background.compile groups)]
    /\ Background.ruleState (Background.loadAndBlockWebsites (Some groups) st)
       = Background.Installed (Background.compile groups).
Proof.
  intros groups st.
  apply (change_event_reinstalls st (Background.compile groups) groups).
  - apply Background.reachable_load, Background.reachable_initial.
  - reflexivity.
  - discriminate.
Defined.

(** ** Facts about strings *)

Lemma append_nil_r (s : string) : (s ++ "")%string = s.
Proof. induction s; simpl; congruence. Qed.

Lemma append_assoc (s1 s2 s3 : string) :
  ((s1 ++ s2) ++ s3)%string = (s1 ++ (s2 ++ s3))%string.
Proof. induction s1; simpl; congruence. Qed.

Lemma append_eq_empty (s1 s2 : string) :
  (s1 ++ s2)%string = "" -> s1 = "" /\ s2 = "".
Proof. destruct s1; simpl; [auto | discriminate]. Qed.

Lemma length_append (s1 s2 : string) :
  String.length (s1 ++ s2) = String.length s1 + String.length s2.
Proof. induction s1; simpl; congruence. Qed.

Lemma forallb_append p (s1 s2 : string) :
  JsString.forallb p (s1 ++ s2) = JsString.forallb p s1 && JsString.forallb p s2.
Proof.
  induction s1 as [|c s1 IH]; simpl; [reflexivity|].
  now rewrite IH, andb_assoc.
Qed.

(** ** The regex matcher *)

Import RegExp.

Create HintDb regex.
#[local] Hint Constructors Matches : regex.

Lemma nullable_Matches (r : regex) : nullable r = true <-> Matches r "".
Proof.
  induction r as [| |p|r1 IH1 r2 IH2|r1 IH1 r2 IH2|r IH]; simpl.
  - split; [discriminate | inversion 1].
  - split; auto with regex.
  - split; [discriminate | inversion 1].
  - rewrite andb_true_iff, IH1, IH2. split.
    + intros [H1 H2]. change "" with ("" ++ "")%string. auto with regex.
    + inversion 1 as [| |? ? s1 s2 H1 H2 Hr Hs| | | |]; subst.
      apply append_eq_empty in Hs as [-> ->]. auto.
  - rewrite orb_true_iff, IH1, IH2. split.
    + intros [H|H]; auto with regex.
    + inversion 1; subst; auto.
  - split; auto with regex.
Qed.

Lemma Matches_Seq_cons r1 r2 c s :
  Matches (Seq r1 r2) (String c s) ->
  (exists s1 s2, s = (s1 ++ s2)%string /\ Matches r1 (String c s1) /\ Matches r2 s2)
  \/ (Matches r1 "" /\ Matches r2 (String c s)).
Proof.
  inversion 1 as [| |? ? s1 s2 H1 H2 Hr Hs| | | |]; subst.
  destruct s1 as [|c1 s1]; simpl in Hs.
  - subst. auto.
  - injection Hs as -> <-. left. eauto.
Qed.

Lemma Matches_Star_unfold r' s' :
  Matches r' s' ->
  forall r c s, r' = Star r -> s' = String c s ->
  exists s1 s2, s = (s1 ++ s2)%string /\ Matches r (String c s1) /\ Matches (Star r) s2.
Proof.
  induction 1 as [| | | | | |r0 s1 s2 H1 _ H2 IH2]; intros q a t Hr' Hs';
    try discriminate.
  injection Hr' as ->.
  destruct s1 as [|c1 s1]; simpl in Hs'.
  - apply IH2; auto.
  - injection Hs' as -> <-. eauto.
Qed.

Lemma Matches_Star_cons r c s :
  Matches (Star r) (String c s) ->
  exists s1 s2, s = (s1 ++ s2)%string /\ Matches r (String c s1) /\ Matches (Star r) s2.
Proof. intros H. now apply (Matches_Star_unfold _ _ H). Qed.

Lemma deriv_Matches (r : regex) (c : ascii) (s : string) :
  Matches (deriv c r) s <-> Matches r (String c s).
Proof.
  revert s.
  induction r as [| |p|r1 IH1 r2 IH2|r1 IH1 r2 IH2|r IH]; intros s; simpl.
  - split; inversion 1.
  - split; inversion 1.
  - destruct (p c) eqn:Hp; split.
    + inversion 1; subst. auto with regex.
    + inversion 1; subst. auto with regex.
    + inversion 1.
    + inversion 1; subst. congruence.
  - split.
    + destruct (nullable r1) eqn:Hn.
      * inversion 1 as [| | |? ? ? HL|? ? ? HR| |]; subst.
        -- inversion HL as [| |? ? s1 s2 H1 H2| | | |]; subst.
           apply IH1 in H1.
           change (String c (s1 ++ s2)) with (String c s1 ++ s2)%string.
           auto with regex.
        -- apply IH2 in HR. apply nullable_Matches in Hn.
           change (String c s) with ("" ++ String c s)%string. auto with regex.
      * inversion 1 as [| |? ? s1 s2 H1 H2| | | |]; subst.
        apply IH1 in H1.
        change (String c (s1 ++ s2)) with (String c s1 ++ s2)%string.
        auto with regex.
    + intros H. apply Matches_Seq_cons in H.
      destruct H as [(s1 & s2 & -> & H1 & H2) | [H1 H2]].
      * apply IH1 in H1. destruct (nullable r1); auto with regex.
      * apply IH2 in H2. apply nullable_Matches in H1. rewrite H1. auto with regex.
  - split.
    + inversion 1; subst; [apply MatchAltL, IH1 | apply MatchAltR, IH2]; assumption.
    + inversion 1; subst; [apply MatchAltL, IH1 | apply MatchAltR, IH2]; assumption.
  - split.
    + inversion 1 as [| |? ? s1 s2 H1 H2| | | |]; subst.
      apply IH in H1.
      change (String c (s1 ++ s2)) with (String c s1 ++ s2)%string.
      auto with regex.
    + intros H. apply Matches_Star_cons in H.
      destruct H as (s1 & s2 & -> & H1 & H2).
      apply IH in H1. auto with regex.
Qed.

Lemma matches_Matches (r : regex) (s : string) :
  matches r s = true <-> Matches r s.
Proof.
  revert r. induction s as [|c s IH]; intros r; simpl.
  - apply nullable_Matches.
  - rewrite IH. apply deriv_Matches.
Qed.

Lemma Matches_Seq_iff r1 r2 s :
  Matches (Seq r1 r2) s <->
  exists s1 s2, s = (s1 ++ s2)%string /\ Matches r1 s1 /\ Matches r2 s2.
Proof.
  split.
  - inversion 1; subst. eauto.
  - intros (s1 & s2 & -> & H1 & H2). auto with regex.
Qed.

Lemma Matches_Class p s :
  Matches (Class p) s <-> exists c, s = String c "" /\ p c = true.
Proof.
  split.
  - inversion 1; subst. eauto.
  - intros (c & -> & Hp). auto with regex.
Qed.

(** The strings of [r*] are the concatenations of strings of [r]. *)
Lemma Matches_Star_pieces r' s :
  Matches r' s ->
  forall r, r' = Star r ->
  exists pieces, Forall (Matches r) pieces
                 /\ s = fold_right String.append "" pieces.
Proof.
  induction 1 as [| | | | |r0|r0 s1 s2 H1 _ H2 IH2]; intros q Hq; try discriminate.
  - exists []. auto.
  - injection Hq as ->. destruct (IH2 q eq_refl) as (pieces & Hall & ->).
    exists (s1 :: pieces). auto.
Qed.

Lemma Matches_Star_iff r s :
  Matches (Star r) s <->
  exists pieces, Forall (Matches r) pieces
                 /\ s = fold_right String.append "" pieces.
Proof.
  split.
  - intros H. now apply (Matches_Star_pieces _ _ H).
  - intros (pieces & Hall & ->).
    induction Hall; simpl; auto with regex.
Qed.

Lemma Matches_Plus_iff r s :
  Matches (Plus r) s <->
  exists pieces, pieces <> [] /\ Forall (Matches r) pieces
                 /\ s = fold_right String.append "" pieces.
Proof.
  unfold Plus. rewrite Matches_Seq_iff. split.
  - intros (s1 & s2 & -> & H1 & H2). apply Matches_Star_iff in H2.
    destruct H2 as (pieces & Hall & ->).
    exists (s1 :: pieces). repeat split; auto. discriminate.
  - intros (pieces & Hne & Hall & ->).
    destruct Hall as [|p pieces Hp Hall]; [congruence|].
    exists p, (fold_right String.append "" pieces).
    repeat split; auto. apply Matches_Star_iff. eauto.
Qed.

Lemma Matches_Star_Class p s :
  Matches (Star (Class p)) s <-> JsString.forallb p s = true.
Proof.
  rewrite Matches_Star_iff. split.
  - intros (pieces & Hall & ->).
    induction Hall as [|x pieces Hx Hall IH]; simpl; [reflexivity|].
    apply Matches_Class in Hx. destruct Hx as (c & -> & Hp).
    simpl. now rewrite Hp, IH.
  - induction s as [|c s IH]; simpl.
    + exists []. auto.
    + rewrite andb_true_iff. intros [Hp Hs].
      destruct (IH Hs) as (pieces & Hall & ->).
      exists (String c "" :: pieces). split; [|reflexivity].
      constructor; auto with regex.
Qed.

Lemma Matches_Plus_Class p s :
  Matches (Plus (Class p)) s <-> s <> "" /\ JsString.forallb p s = true.
Proof.
  unfold Plus. rewrite Matches_Seq_iff. split.
  - intros (s1 & s2 & -> & H1 & H2).
    apply Matches_Class in H1. destruct H1 as (c & -> & Hp).
    apply Matches_Star_Class in H2. simpl. rewrite Hp, H2.
    split; [discriminate | reflexivity].
  - intros [Hne Hall]. destruct s as [|c s]; [congruence|].
    simpl in Hall. apply andb_true_iff in Hall as [Hp Hs].
    exists (String c ""), s. repeat split; auto with regex.
    now apply Matches_Star_Class.
Qed.

Lemma Matches_Times_Class p n s :
  Matches (Times (Class p) n) s <->
  String.length s = n /\ JsString.forallb p s = true.
Proof.
  revert s. induction n as [|n IH]; intros s; simpl.
  - split.
    + inversion 1. auto.
    + intros [Hlen _]. destruct s; [auto with regex | discriminate].
  - rewrite Matches_Seq_iff. split.
    + intros (s1 & s2 & -> & H1 & H2).
      apply Matches_Class in H1. destruct H1 as (c & -> & Hp).
      apply IH in H2 as [Hlen Hall]. simpl. now rewrite Hp, Hlen, Hall.
    + intros [Hlen Hall]. destruct s as [|c s]; [discriminate|].
      simpl in *. apply andb_true_iff in Hall as [Hp Hs].
      exists (String c ""), s. repeat split; auto with regex.
      apply IH. split; congruence.
Qed.

Lemma Matches_UpTo_Class p n s :
  Matches (UpTo (Class p) n) s <->
  String.length s <= n /\ JsString.forallb p s = true.
Proof.
  revert s. induction n as [|n IH]; intros s; simpl.
  - split.
    + inversion 1. auto.
    + intros [Hlen _]. destruct s; [auto with regex | simpl in Hlen; lia].
  - split.
    + inversion 1 as [| | |? ? ? HL|? ? ? HR| |]; subst.
      * inversion HL. simpl. split; [lia | reflexivity].
      * apply Matches_Seq_iff in HR. destruct HR as (s1 & s2 & -> & H1 & H2).
        apply Matches_Class in H1. destruct H1 as (c & -> & Hp).
        apply IH in H2 as [Hlen Hall]. simpl. rewrite Hp, Hall.
        split; [lia | reflexivity].
    + intros [Hlen Hall]. destruct s as [|c s]; [auto with regex|].
      simpl in *. apply andb_true_iff in Hall as [Hp Hs].
      apply MatchAltR.
      change (String c s) with (String c "" ++ s)%string.
      apply MatchSeq; auto with regex. apply IH. split; [lia | assumption].
Qed.

Lemma split_at (n : nat) (s : string) :
  n <= String.length s ->
  exists s1 s2, s = (s1 ++ s2)%string /\ String.length s1 = n.
Proof.
  revert s. induction n as [|n IH]; intros s Hn.
  - exists "", s. auto.
  - destruct s as [|c s]; simpl in Hn; [lia|].
    destruct (IH s) as (s1 & s2 & -> & Hlen); [lia|].
    exists (String c s1), s2. simpl. auto.
Qed.

Lemma Matches_Range_Class p lo hi s :
  lo <= hi ->
  (Matches (Range (Class p) lo hi) s <->
   JsString.forallb p s = true /\ lo <= String.length s <= hi).
Proof.
  intros Hle. unfold Range. rewrite Matches_Seq_iff. split.
  - intros (s1 & s2 & -> & H1 & H2).
    apply Matches_Times_Class in H1 as [Hlen1 Hall1].
    apply Matches_UpTo_Class in H2 as [Hlen2 Hall2].
    rewrite forallb_append, length_append, Hall1, Hall2. split; [reflexivity | lia].
  - intros [Hall [Hlo Hhi]].
    destruct (split_at lo s Hlo) as (s1 & s2 & -> & Hlen).
    rewrite forallb_append in Hall. apply andb_true_iff in Hall as [Hall1 Hall2].
    rewrite length_append in Hhi.
    exists s1, s2. repeat split.
    + apply Matches_Times_Class. auto.
    + apply Matches_UpTo_Class. split; [lia | assumption].
Qed.

(** ** The domain pattern *)

Lemma dotChar_iff c : dotChar c = true <-> c = "."%char.
Proof. unfold dotChar. apply Ascii.eqb_eq. Qed.

Lemma join_cons (x y : string) (rest : list string) :
  JsString.join (x :: y :: rest) "." = (x ++ "." ++ JsString.join (y :: rest) ".")%string.
Proof. reflexivity. Qed.

Lemma join_dotted (labels : list string) (tld : string) :
  JsString.join (labels ++ [tld]) "."
  = (fold_right String.append "" (map (fun l => l ++ ".")%string labels) ++ tld)%string.
Proof.
  induction labels as [|l labels IH]; [reflexivity|].
  simpl app. destruct (labels ++ [tld]) as [|y rest] eqn:E.
  - destruct labels; discriminate.
  - rewrite join_cons, IH. simpl. now rewrite !append_assoc.
Qed.

Lemma Matches_segment (x : string) :
  Matches (Seq (Plus (Class labelChar)) (Class dotChar)) x <->
  exists l, isLabel l /\ x = (l ++ ".")%string.
Proof.
  rewrite Matches_Seq_iff. split.
  - intros (s1 & s2 & -> & H1 & H2).
    apply Matches_Plus_Class in H1. apply Matches_Class in H2.
    destruct H2 as (c & -> & Hc). apply dotChar_iff in Hc as ->.
    exists s1. split; [exact H1 | reflexivity].
  - intros (l & Hl & ->). exists l, ".". repeat split.
    + now apply Matches_Plus_Class.
    + apply Matches_Class. exists "."%char. auto.
Qed.

Lemma Forall_segments (pieces : list string) :
  Forall (Matches (Seq (Plus (Class labelChar)) (Class dotChar))) pieces <->
  exists labels, Forall isLabel labels
                 /\ pieces = map (fun l => l ++ ".")%string labels.
Proof.
  split.
  - induction 1 as [|x pieces Hx _ (labels & Hall & ->)].
    + exists []. auto.
    + apply Matches_segment in Hx. destruct Hx as (l & Hl & ->).
      exists (l :: labels). auto.
  - intros (labels & Hall & ->).
    induction Hall as [|l labels Hl _ IH]; simpl; constructor; auto.
    apply Matches_segment. eauto.
Qed.

Lemma body_DomainShape (host : string) :
  Matches (body domainPattern) host <-> DomainShape host.
Proof.
  unfold domainPattern, DomainShape. simpl body.
  rewrite Matches_Seq_iff. split.
  - intros (s1 & s2 & -> & H1 & H2).
    apply Matches_Plus_iff in H1. destruct H1 as (pieces & Hne & Hall & ->).
    apply Forall_segments in Hall. destruct Hall as (labels & Hall & ->).
    apply Matches_Range_Class in H2; [|lia].
    exists labels, s2. repeat split; try tauto.
    + intros ->. now apply Hne.
    + symmetry. apply join_dotted.
  - intros (labels & tld & Hne & Hall & Htld & ->).
    exists (fold_right String.append "" (map (fun l => l ++ ".")%string labels)), tld.
    repeat split.
    + apply join_dotted.
    + apply Matches_Plus_iff. exists (map (fun l => (l ++ ".")%string) labels).
      repeat split.
      * destruct labels; [congruence | discriminate].
      * apply Forall_segments. eauto.
    + apply Matches_Range_Class; [lia | exact Htld].
Qed.

Lemma prefix_head_differs (a b : ascii) (s1 s2 : string) :
  a <> b -> String.prefix (String a s1) (String b s2) = false.
Proof. intros Hab. simpl. destruct (ascii_dec a b); [contradiction | reflexivity]. Qed.

(** The look-ahead of the pattern never decides: a string of the shape
    starts with a label character. *)
Lemma DomainShape_not_ahead (host : string) :
  DomainShape host -> String.prefix "://" host = false.
Proof.
  intros (labels & tld & Hne & Hall & _ & ->).
  destruct Hall as [|l labels [Hl Hchars] _]; [congruence|].
  destruct l as [|c l]; [congruence|].
  simpl in Hchars. apply andb_true_iff in Hchars as [Hc _].
  rewrite join_dotted. simpl fold_right. simpl String.append.
  apply prefix_head_differs. intros <-. discriminate Hc.
Qed.

Lemma test_domainPattern (host : string) :
  RegExp.test domainPattern host = true <-> DomainShape host.
Proof.
  unfold RegExp.test. rewrite andb_true_iff, negb_true_iff, matches_Matches,
    body_DomainShape.
  split; [tauto|]. intros H. split; [now apply DomainShape_not_ahead | exact H].
Qed.



(** ** Splitting a hostname *)

Lemma split_dotFree (label : string) :
  dotFree label -> JsString.split label "." = [label].
Proof.
  unfold dotFree. induction label as [|c label IH]; simpl; [reflexivity|].
  intros H. apply orb_false_iff in H as [Hc Hrest].
  unfold dotChar in Hc. rewrite Hc, (IH Hrest). reflexivity.
Qed.

Lemma split_label_dot (label rest : string) :
  dotFree label ->
  JsString.split (label ++ "." ++ rest) "." = label :: JsString.split rest ".".
Proof.
  unfold dotFree. induction label as [|c label IH]; simpl; [reflexivity|].
  intros H. apply orb_false_iff in H as [Hc Hrest].
  unfold dotChar in Hc. rewrite Hc. simpl in IH. rewrite (IH Hrest). reflexivity.
Qed.

Lemma split_join (labels : list string) :
  labels <> [] -> Forall dotFree labels ->
  JsString.split (JsString.join labels ".") "." = labels.
Proof.
  intros Hne Hall. induction Hall as [|l labels Hl Hall IH]; [congruence|].
  destruct labels as [|y rest].
  - simpl. now apply split_dotFree.
  - rewrite join_cons, split_label_dot by assumption.
    f_equal. apply IH. discriminate.
Qed.

Lemma sliceFrom_last_two {A : Type} (front : list A) (a b : A) :
  JsArray.sliceFrom (front ++ [a; b]) (-2) = [a; b].
Proof.
  unfold JsArray.sliceFrom, JsArray.relativeStart.
  change (-2 <? 0)%Z with true. cbv iota.
  rewrite length_app. simpl length.
  replace (Z.to_nat (Z.max (Z.of_nat (length front + 2) + -2) 0))
    with (length front) by lia.
  now rewrite skipn_app, skipn_all, Nat.sub_diag.
Qed.

(** C5, as stated, fails: not every input gives a result. "not a url"
    holds no [://], the URL made of it with [http://] in front does not
    parse, and [getBaseUrl] ends with the exception of the constructor. *)
Lemma getBaseUrl_raises_on_unparsable :
  JsString.includes "not a url" "://" = false
  /\ withScheme "not a url" = "http://not a url"
  /\ UrlStandard.parse "http://not a url" = UrlStandard.Failure
  /\ getBaseUrl UrlStandard.newURL "not a url" = None
  /\ (forall newURL : string -> option URL,
         newURL "http://not a url" = None -> getBaseUrl newURL "not a url" = None).
Proof.
  repeat split. intros newURL H. unfold getBaseUrl.
  change (withScheme "not a url") with "http://not a url". now rewrite H.
Qed.

(** C5 (amended): for every input that parses as a URL, with [http://]
    put in front of an input that holds no [://], [getBaseUrl] splits the
    hostname at the dots and joins the last two labels: for a hostname of
    labels [front], [a], [b] the result is [a.b], for a hostname of one
    label it is that label; for an input that does not parse it raises,
    and only then. With the model of the parser,
    "https://sub.example.com/path" gives "example.com", and so does
    "sub.example.com/path", which parses only with the scheme in front. *)
Theorem getBaseUrl_spec :
  (forall (newURL : string -> option URL) raw url front a b,
      newURL (withScheme raw) = Some url ->
      Forall dotFree (front ++ [a; b]) ->
      hostname url = JsString.join (front ++ [a; b]) "." ->
      getBaseUrl newURL raw = Some (a ++ "." ++ b)%string)
  /\ (forall (newURL : string -> option URL) raw url,
         newURL (withScheme raw) = Some url ->
         dotFree (hostname url) ->
         getBaseUrl newURL raw = Some (hostname url))
  /\ (forall (newURL : string -> option URL) raw,
         newURL (withScheme raw) = None <-> getBaseUrl newURL raw = None)
  /\ (UrlStandard.parse (withScheme "https://sub.example.com/path")
      = UrlStandard.Parsed (mkURL "https:" "sub.example.com" "/path")
      /\ getBaseUrl UrlStandard.newURL "https://sub.example.com/path"
         = Some "example.com")
  /\ (forall raw, JsString.includes raw "://" = true -> withScheme raw = raw)
  /\ (forall raw,
         JsString.includes raw "://" = false ->
         withScheme raw = ("http://" ++ raw)%string)
  /\ (forall (newURL : string -> option URL) raw url front a b,
         JsString.includes raw "://" = false ->
         newURL ("http://" ++ raw)%string = Some url ->
         Forall dotFree (front ++ [a; b]) ->
         hostname url = JsString.join (front ++ [a; b]) "." ->
         getBaseUrl newURL raw = Some (a ++ "." ++ b)%string)
  /\ (forall (newURL : string -> option URL) raw url front a b,
         JsString.includes raw "://" = true ->
         newURL raw = Some url ->
         Forall dotFree (front ++ [a; b]) ->
         hostname url = JsString.join (front ++ [a; b]) "." ->
         getBaseUrl newURL raw = Some (a ++ "." ++ b)%string)
  /\ (JsString.includes "sub.example.com/path" "://" = false
      /\ UrlStandard.parse "sub.example.com/path" = UrlStandard.Failure
      /\ UrlStandard.parse "http://sub.example.com/path"
         = UrlStandard.Parsed (mkURL "http:" "sub.example.com" "/path")
      /\ getBaseUrl UrlStandard.newURL "sub.example.com/path"
         = Some "example.com").
Proof.
  assert (Hlabels :
            forall (newURL : string -> option URL) raw url front a b,
              newURL (withScheme raw) = Some url ->
              Forall dotFree (front ++ [a; b]) ->
              hostname url = JsString.join (front ++ [a; b]) "." ->
              getBaseUrl newURL raw = Some (a ++ "." ++ b)%string).
  { intros newURL raw url front a b Hurl Hfree Hhost.
    unfold getBaseUrl. rewrite Hurl, Hhost, split_join; auto.
    + now rewrite sliceFrom_last_two.
    + destruct front; discriminate. }
  split; [exact Hlabels|].
  split; [|split; [|split; [|split; [|split; [|split; [|split]]]]]].
  - intros newURL raw url Hurl Hfree.
    unfold getBaseUrl. rewrite Hurl, split_dotFree by assumption. reflexivity.
  - intros newURL raw. unfold getBaseUrl.
    destruct (newURL (withScheme raw)); split; congruence.
  - split; reflexivity.
  - intros raw H. unfold withScheme. now rewrite H.
  - intros raw H. unfold withScheme. now rewrite H.
  - intros newURL raw url front a b Hno Hurl Hfree Hhost.
    apply (Hlabels newURL raw url front a b); [|assumption|assumption].
    unfold withScheme. now rewrite Hno.
  - intros newURL raw url front a b Hyes Hurl Hfree Hhost.
    apply (Hlabels newURL raw url front a b); [|assumption|assumption].
    unfold withScheme. now rewrite Hyes.
  - repeat split.
Qed.

Lemma getBaseUrl_spec_witness :
  getBaseUrl UrlStandard.newURL "https://sub.example.com/path"
  = Some ("example" ++ "." ++ "com")%string
  /\ getBaseUrl UrlStandard.newURL "http://localhost:8080" = Some "localhost".
Proof.
  split.
  - apply (proj1 getBaseUrl_spec UrlStandard.newURL "https://sub.example.com/path"
                 (mkURL "https:" "sub.example.com" "/path") ["sub"] "example" "com").
    + reflexivity.
    + repeat constructor.
    + reflexivity.
  - apply (proj1 (proj2 getBaseUrl_spec) UrlStandard.newURL "http://localhost:8080"
                 (mkURL "http:" "localhost" "")).
    + reflexivity.
    + reflexivity.
Defined.

(** ** Facts about arrays *)

Lemma findIndexFrom_shift {A : Type} (p : A -> bool) (i : Z) (arr : list A) :
  JsArray.findIndexFrom p i arr
  = if existsb p arr then (i + JsArray.findIndexFrom p 0 arr)%Z else (-1)%Z.
Proof.
  revert i. induction arr as [|x arr IH]; intros i; simpl; [reflexivity|].
  destruct (p x); simpl; [lia|].
  rewrite (IH (i + 1)%Z), (IH 1%Z). destruct (existsb p arr); lia.
Qed.

(** [findIndex] answers -1 exactly when no element satisfies the test. *)
Lemma findIndex_absent {A : Type} (p : A -> bool) (arr : list A) :
  existsb p arr = false -> JsArray.findIndex p arr = (-1)%Z.
Proof.
  intros H. unfold JsArray.findIndex. now rewrite findIndexFrom_shift, H.
Qed.

(** [findIndex] answers the position of the first element that satisfies
    the test. *)
Lemma findIndex_first {A : Type} (p : A -> bool) (before after : list A) (x : A) :
  existsb p before = false -> p x = true ->
  JsArray.findIndex p (before ++ x :: after) = Z.of_nat (length before).
Proof.
  intros Hb Hx. unfold JsArray.findIndex.
  induction before as [|y before IH].
  - simpl. now rewrite Hx.
  - cbn [existsb] in Hb. apply orb_false_iff in Hb as [Hy Hb].
    cbn [app JsArray.findIndexFrom]. rewrite Hy.
    rewrite findIndexFrom_shift, existsb_app. cbn [existsb].
    rewrite Hx, orb_true_r, (IH Hb). cbn [length]. lia.
Qed.

Lemma get_middle {A : Type} (before after : list A) (x : A) :
  JsArray.get (before ++ x :: after) (Z.of_nat (length before)) = Some x.
Proof.
  unfold JsArray.get.
  destruct (Z.of_nat (length before) <? 0)%Z eqn:E; [apply Z.ltb_lt in E; lia|].
  rewrite Nat2Z.id, nth_error_app2, Nat.sub_diag by lia. reflexivity.
Qed.

Lemma get_negative {A : Type} (arr : list A) (i : Z) :
  (i < 0)%Z -> JsArray.get arr i = None.
Proof. intros H. unfold JsArray.get. apply Z.ltb_lt in H. now rewrite H. Qed.

Lemma set_middle {A : Type} (before after : list A) (x y : A) :
  JsArray.set (before ++ x :: after) (length before) y = before ++ y :: after.
Proof. induction before; simpl; congruence. Qed.

Lemma splice1_middle {A : Type} (before after : list A) (x : A) :
  JsArray.splice1 (before ++ x :: after) (Z.of_nat (length before)) = before ++ after.
Proof.
  unfold JsArray.splice1, JsArray.relativeStart.
  destruct (Z.of_nat (length before) <? 0)%Z eqn:E; [apply Z.ltb_lt in E; lia|].
  rewrite length_app. simpl length.
  replace (Z.to_nat (Z.min _ _)) with (length before) by lia.
  rewrite firstn_app, firstn_all, Nat.sub_diag. simpl firstn. rewrite app_nil_r.
  f_equal.
  change (S (length before)) with (1 + length before).
  rewrite <- skipn_skipn, skipn_app, skipn_all, Nat.sub_diag.
  reflexivity.
Qed.

(** [splice(-1, 1)] takes the last element away. *)
Lemma splice1_minus_one {A : Type} (arr : list A) :
  JsArray.splice1 arr (-1) = removelast arr.
Proof.
  destruct arr as [|a arr]; [reflexivity|].
  destruct (@exists_last _ (a :: arr)) as (front & x & ->); [discriminate|].
  unfold JsArray.splice1, JsArray.relativeStart.
  change (-1 <? 0)%Z with true. cbv iota.
  rewrite removelast_last, length_app. simpl length.
  replace (Z.to_nat _) with (length front) by lia.
  rewrite firstn_app, firstn_all, Nat.sub_diag. simpl firstn. rewrite app_nil_r.
  change (S (length front)) with (1 + length front).
  rewrite <- skipn_skipn, skipn_app, skipn_all, Nat.sub_diag.
  simpl. apply app_nil_r.
Qed.

(** ** Loading the groups *)

Lemma traverse_toStr (sites : list string) :
  Js.traverse Js.toStr (map Js.Str sites) = Some sites.
Proof. induction sites as [|w sites IH]; simpl; [|rewrite IH]; reflexivity. Qed.

Lemma toGroup_ofGroup (g : Group) : Js.toGroup (Js.ofGroup g) = Some g.
Proof.
  destruct g as [t ws a e]. unfold Js.toGroup, Js.ofGroup. simpl.
  now rewrite traverse_toStr.
Qed.

(** What [saveGroups] writes stands for the groups it was given. *)
Lemma toGroups_ofGroups (gs : list Group) : Js.toGroups (Js.ofGroups gs) = Some gs.
Proof.
  unfold Js.toGroups, Js.ofGroups.
  induction gs as [|g gs IH]; [reflexivity|].
  cbn [map Js.traverse]. now rewrite toGroup_ofGroup, IH.
Qed.

Lemma loadGroups_stored (st : Popup.State) (v : Js.value) :
  Popup.storage st = Some v ->
  Popup.loadGroups st = if Js.truthy v then v else Js.Array [].
Proof. intros H. unfold Popup.loadGroups, Popup.storageGet. now rewrite H. Qed.

(** C4, as stated, fails: a stored value that is not a sequence of groups
    comes back as it is. *)
Lemma loadGroups_returns_malformed :
  let st := Popup.setStorage (Some (Js.Str "oops")) Popup.initial in
  Js.malformed (Js.Str "oops") = true
  /\ Popup.loadGroups st = Js.Str "oops"
  /\ Popup.loadGroups st <> Js.Array [].
Proof. repeat split; try reflexivity. discriminate. Qed.

(** C4 (amended): [loadGroups] answers the empty array when the key is
    absent or holds a falsy value ([null], [false], [0], the empty
    string); it answers any other stored value as it is, so a stored
    sequence of groups comes back unchanged and in order, and so does a
    truthy value that is not a sequence of groups. *)
Theorem loadGroups_spec :
  (forall st, Popup.storage st = None -> Popup.loadGroups st = Js.Array [])
  /\ (forall st v,
         Popup.storage st = Some v -> Js.truthy v = false ->
         Popup.loadGroups st = Js.Array [])
  /\ (forall st v,
         Popup.storage st = Some v -> Js.truthy v = true ->
         Popup.loadGroups st = v)
  /\ (forall st gs,
         Popup.storage st = Some (Js.ofGroups gs) ->
         Popup.loadGroups st = Js.ofGroups gs
         /\ Js.toGroups (Popup.loadGroups st) = Some gs).
Proof.
  repeat split.
  - intros st H. unfold Popup.loadGroups, Popup.storageGet. now rewrite H.
  - intros st v H Hv. now rewrite (loadGroups_stored st v H), Hv.
  - intros st v H Hv. now rewrite (loadGroups_stored st v H), Hv.
  - rewrite (loadGroups_stored st _ H). reflexivity.
  - rewrite (loadGroups_stored st _ H). apply toGroups_ofGroups.
Qed.

Lemma loadGroups_spec_witness :
  Popup.loadGroups Popup.initial = Js.Array []
  /\ Popup.loadGroups (Popup.setStorage (Some (Js.Number 0)) Popup.initial)
     = Js.Array []
  /\ Popup.loadGroups (Popup.stateOf (Popup.addGroup "Work" Popup.initial))
     = Js.ofGroups [mkGroup "Work" [] true true].
Proof.
  split; [|split].
  - apply (proj1 loadGroups_spec Popup.initial). reflexivity.
  - apply (proj1 (proj2 loadGroups_spec)
                 (Popup.setStorage (Some (Js.Number 0)) Popup.initial)
                 (Js.Number 0)); reflexivity.
  - apply (proj2 (proj2 (proj2 loadGroups_spec))
                 (Popup.stateOf (Popup.addGroup "Work" Popup.initial))
                 [mkGroup "Work" [] true true]).
    reflexivity.
Defined.

(** After a save, a load answers the groups in memory. *)
Lemma loadGroups_saveGroups (st : Popup.State) :
  Js.toGroups (Popup.loadGroups (Popup.saveGroups st)) = Some (Popup.groups st).
Proof.
  rewrite (loadGroups_stored _ (Js.ofGroups (Popup.groups st))) by reflexivity.
  apply toGroups_ofGroups.
Qed.

(** ** Removing a group *)

(** With a group of that title, [removeGroup] takes the first one out. *)
Lemma removeGroup_found (st : Popup.State) (t : string)
      (before after : list Group) (g : Group) :
  Popup.groups st = before ++ g :: after ->
  existsb (Popup.hasTitle t) before = false ->
  title g = t ->
  Popup.groups (Popup.stateOf (Popup.removeGroup t st)) = before ++ after.
Proof.
  intros Hgs Hb Ht. unfold Popup.removeGroup.
  rewrite Hgs, (findIndex_first _ before after g Hb), splice1_middle.
  - destruct (JsArray.get _ _); reflexivity.
  - unfold Popup.hasTitle. now apply String.eqb_eq.
Qed.

(** Without one, [removeGroup] takes the last group out and stops at
    [removeChild] before anything is saved. *)
Lemma removeGroup_not_found (st : Popup.State) (t : string) :
  existsb (Popup.hasTitle t) (Popup.groups st) = false ->
  Popup.removeGroup t st
  = Popup.Thrown (Popup.setGroups (removelast (Popup.groups st)) st).
Proof.
  intros H. unfold Popup.removeGroup.
  rewrite (findIndex_absent _ _ H), splice1_minus_one, get_negative by lia.
  reflexivity.
Qed.

(** C3, as stated, fails: no group is called "Play", and [removeGroup]
    with that title does not leave the groups as they are: the group
    "Work" is removed from memory, the exception of [removeChild] ends the
    call and the storage still holds "Work". *)
Theorem removeGroup_missing_title :
  let st := Popup.stateOf (Popup.addGroup "Work" Popup.initial) in
  let st' := Popup.stateOf (Popup.removeGroup "Play" st) in
  Popup.groups st = [mkGroup "Work" [] true true]
  /\ existsb (Popup.hasTitle "Play") (Popup.groups st) = false
  /\ Popup.removeGroup "Play" st = Popup.Thrown st'
  /\ Popup.groups st' = []
  /\ Popup.groups st' <> Popup.groups st
  /\ Popup.storage st' = Some (Js.ofGroups [mkGroup "Work" [] true true]).
Proof. repeat split; try reflexivity. discriminate. Qed.

(** C3 (amended): when a group with title [t] exists, [removeGroup]
    removes the first group of that title and keeps the others in order.
    The function assumes that the group exists and has no guard for a
    title that no group has: it then removes the last group from memory
    and ends with the exception of [removeChild] before the save, so the
    groups are left unchanged only when there are none. *)
Theorem removeGroup_spec :
  (forall st t before g after,
      Popup.groups st = before ++ g :: after ->
      existsb (Popup.hasTitle t) before = false ->
      title g = t ->
      Popup.groups (Popup.stateOf (Popup.removeGroup t st)) = before ++ after)
  /\ (forall st t,
         existsb (Popup.hasTitle t) (Popup.groups st) = false ->
         Popup.removeGroup t st
         = Popup.Thrown (Popup.setGroups (removelast (Popup.groups st)) st)
         /\ Popup.storage (Popup.stateOf (Popup.removeGroup t st)) = Popup.storage st
         /\ (Popup.groups (Popup.stateOf (Popup.removeGroup t st)) = Popup.groups st
             <-> Popup.groups st = [])).
Proof.
  split.
  - intros st t before g after Hgs Hb Ht. unfold Popup.removeGroup.
    rewrite Hgs, (findIndex_first _ before after g Hb), splice1_middle.
    + destruct (JsArray.get _ _); reflexivity.
    + unfold Popup.hasTitle. now apply String.eqb_eq.
  - intros st t H.
    assert (E : Popup.removeGroup t st
                = Popup.Thrown (Popup.setGroups (removelast (Popup.groups st)) st)).
    { unfold Popup.removeGroup.
      rewrite (findIndex_absent _ _ H), splice1_minus_one, get_negative by lia.
      reflexivity. }
    rewrite E. split; [reflexivity|]. split; [reflexivity|].
    cbn [Popup.stateOf Popup.groups Popup.setGroups]. split.
    + intros Hsame. destruct (Popup.groups st) as [|g gs]; [reflexivity|].
      exfalso.
      destruct (@exists_last _ (g :: gs)) as (front & x & E'); [discriminate|].
      rewrite E', removelast_last in Hsame.
      apply (f_equal (@length Group)) in Hsame.
      rewrite length_app in Hsame. simpl in Hsame. lia.
    + intros ->. reflexivity.
Qed.

Lemma removeGroup_spec_witness :
  let st := Popup.stateOf
              (Popup.addGroup "Home"
                 (Popup.stateOf (Popup.addGroup "Work" Popup.initial))) in
  Popup.groups (Popup.stateOf (Popup.removeGroup "Work" st))
  = [] ++ [mkGroup "Home" [] true true]
  /\ Popup.removeGroup "Play" st
     = Popup.Thrown (Popup.setGroups (removelast (Popup.groups st)) st).
Proof.
  intros st. split.
  - apply (proj1 removeGroup_spec st "Work" []
                 (mkGroup "Work" [] true true) [mkGroup "Home" [] true true]);
      reflexivity.
  - apply (proj2 removeGroup_spec st "Play"). reflexivity.
Defined.

(** ** Trimming *)

Lemma trimStart_blank (s : string) :
  JsString.forallb JsString.isWhiteSpace s = true -> JsString.trimStart s = "".
Proof.
  induction s as [|c s IH]; simpl; [reflexivity|].
  intros H. apply andb_true_iff in H as [Hc Hs]. rewrite Hc. auto.
Qed.

Lemma trimEnd_empty_head (c : ascii) (s : string) :
  JsString.trimEnd (String c s) = "" -> JsString.isWhiteSpace c = true.
Proof.
  simpl. destruct (JsString.trimEnd s); [|discriminate].
  destruct (JsString.isWhiteSpace c); [reflexivity | discriminate].
Qed.

(** The trimmed string is empty exactly for a string of white space. *)
Lemma trim_empty_iff (s : string) :
  JsString.trim s = "" <-> JsString.forallb JsString.isWhiteSpace s = true.
Proof.
  unfold JsString.trim. split.
  - induction s as [|c s IH]; [reflexivity|].
    cbn [JsString.trimStart JsString.forallb].
    destruct (JsString.isWhiteSpace c) eqn:Hc; [exact IH|].
    intros H. apply trimEnd_empty_head in H. congruence.
  - intros H. now rewrite trimStart_blank.
Qed.

(** ** Adding a group *)

(** C9: for an input of white space only (or no input at all)
    [addGroup] returns with the state it was called in: the groups are the
    same, nothing is saved and no message is shown; the test for the empty
    title is made on the trimmed input. *)
Theorem addGroup_blank_title (typed : string) (st : Popup.State) :
  JsString.forallb JsString.isWhiteSpace typed = true ->
  JsString.trim typed = ""
  /\ Popup.addGroup typed st = Popup.Returned st.
Proof.
  intros H. apply trim_empty_iff in H. split; [exact H|].
  unfold Popup.addGroup. now rewrite H.
Qed.

Lemma addGroup_blank_title_witness :
  JsString.trim "   " = ""
  /\ Popup.addGroup "   " Popup.initial = Popup.Returned Popup.initial.
Proof. apply (addGroup_blank_title "   " Popup.initial). reflexivity. Defined.

Lemma addGroup_duplicate (typed : string) (st : Popup.State) :
  JsString.trim typed <> "" ->
  existsb (Popup.hasTitle (JsString.trim typed)) (Popup.groups st) = true ->
  Popup.addGroup typed st
  = Popup.Returned (Popup.showMessage "Group already exists" false st).
Proof.
  intros Ht Hex. unfold Popup.addGroup.
  apply String.eqb_neq in Ht. now rewrite Ht, Hex.
Qed.

Lemma addGroup_new (typed : string) (st : Popup.State) :
  JsString.trim typed <> "" ->
  existsb (Popup.hasTitle (JsString.trim typed)) (Popup.groups st) = false ->
  exists st',
    Popup.addGroup typed st = Popup.Returned st'
    /\ Popup.groups st'
       = Popup.groups st ++ [mkGroup (JsString.trim typed) [] true true]
    /\ Popup.storage st' = Some (Js.ofGroups (Popup.groups st'))
    /\ Popup.errorMessage st' = Popup.errorMessage st.
Proof.
  intros Ht Hex. unfold Popup.addGroup.
  apply String.eqb_neq in Ht. rewrite Ht, Hex. simpl.
  eexists. split; [reflexivity|]. repeat split.
Qed.

(** C7: with a non-empty trimmed title, [addGroup] on a collection that
    has a group of that title keeps the collection and the storage and
    shows "Group already exists"; on a collection without one it appends
    the group with no websites, active and expanded, and saves; so a
    second [addGroup] with the same title, as for "Work", is always of the
    first kind. *)
Theorem addGroup_spec (typed : string) (st : Popup.State) :
  JsString.trim typed <> "" ->
  let title := JsString.trim typed in
  let st' := Popup.stateOf (Popup.addGroup typed st) in
  (existsb (Popup.hasTitle title) (Popup.groups st) = true ->
   Popup.groups st' = Popup.groups st
   /\ Popup.storage st' = Popup.storage st
   /\ Popup.errorMessage st' = Some ("Group already exists", false))
  /\ (existsb (Popup.hasTitle title) (Popup.groups st) = false ->
      Popup.groups st' = Popup.groups st ++ [mkGroup title [] true true]
      /\ Popup.storage st' = Some (Js.ofGroups (Popup.groups st'))
      /\ Popup.errorMessage st' = Popup.errorMessage st)
  /\ (let st'' := Popup.stateOf (Popup.addGroup typed st') in
      Popup.groups st'' = Popup.groups st'
      /\ Popup.storage st'' = Popup.storage st'
      /\ Popup.errorMessage st'' = Some ("Group already exists", false)).
Proof.
  intros Ht title st'.
  assert (Hdup : forall s,
             existsb (Popup.hasTitle title) (Popup.groups s) = true ->
             let s' := Popup.stateOf (Popup.addGroup typed s) in
             Popup.groups s' = Popup.groups s
             /\ Popup.storage s' = Popup.storage s
             /\ Popup.errorMessage s' = Some ("Group already exists", false)).
  { intros s Hex. rewrite (addGroup_duplicate typed s Ht Hex). repeat split. }
  assert (Hnew : existsb (Popup.hasTitle title) (Popup.groups st) = false ->
                 Popup.groups st' = Popup.groups st ++ [mkGroup title [] true true]
                 /\ Popup.storage st' = Some (Js.ofGroups (Popup.groups st'))
                 /\ Popup.errorMessage st' = Popup.errorMessage st).
  { intros Hex. destruct (addGroup_new typed st Ht Hex) as (s & Hs & H).
    subst st'. rewrite Hs. exact H. }
  split; [apply Hdup | split; [exact Hnew|]].
  apply Hdup.
  destruct (existsb (Popup.hasTitle title) (Popup.groups st)) eqn:Hex.
  - destruct (Hdup st Hex) as [E _]. subst st'. simpl in E. rewrite E. exact Hex.
  - destruct (Hnew eq_refl) as [E _]. rewrite E.
    rewrite existsb_app. simpl. unfold Popup.hasTitle at 2. simpl.
    rewrite String.eqb_refl. apply orb_true_r.
Qed.

Lemma addGroup_spec_witness :
  let st := Popup.initial in
  let st' := Popup.stateOf (Popup.addGroup "Work" st) in
  (existsb (Popup.hasTitle "Work") (Popup.groups st) = true ->
   Popup.groups st' = Popup.groups st
   /\ Popup.storage st' = Popup.storage st
   /\ Popup.errorMessage st' = Some ("Group already exists", false))
  /\ (existsb (Popup.hasTitle "Work") (Popup.groups st) = false ->
      Popup.groups st' = Popup.groups st ++ [mkGroup "Work" [] true true]
      /\ Popup.storage st' = Some (Js.ofGroups (Popup.groups st'))
      /\ Popup.errorMessage st' = Popup.errorMessage st)
  /\ (let st'' := Popup.stateOf (Popup.addGroup "Work" st') in
      Popup.groups st'' = Popup.groups st'
      /\ Popup.storage st'' = Popup.storage st'
      /\ Popup.errorMessage st'' = Some ("Group already exists", false)).
Proof. apply (addGroup_spec "Work" Popup.initial). discriminate. Defined.

(** ** Websites of a group *)

Lemma indexOf_absent (sites : list string) (w : string) :
  JsArray.includes sites w = false -> JsArray.indexOf sites w = (-1)%Z.
Proof. apply findIndex_absent. Qed.

Lemma removelast_shorter {A : Type} (l : list A) : l <> [] -> removelast l <> l.
Proof.
  intros Hne H. destruct (exists_last Hne) as (front & x & ->).
  rewrite removelast_last in H. apply (f_equal (@length A)) in H.
  rewrite length_app in H. simpl in H. lia.
Qed.

(** The groups after [addWebsiteToGroup] of a website that the group does
    not hold yet, whether the list in the popup could be updated or not. *)
Lemma addWebsiteToGroup_groups (st : Popup.State) (before after : list Group)
      (g : Group) (w : string) (groupDiv : nat) :
  Popup.groups st = before ++ g :: after ->
  existsb (Popup.hasTitle (title g)) before = false ->
  JsArray.includes (websites g) w = false ->
  Popup.groups (Popup.stateOf (Popup.addWebsiteToGroup w (title g) groupDiv st))
  = before ++ Popup.setWebsites (websites g ++ [w]) g :: after.
Proof.
  intros Hgs Hb Hw. unfold Popup.addWebsiteToGroup.
  rewrite Hgs, (findIndex_first _ before after g Hb), get_middle, Hw, Nat2Z.id,
    set_middle by (unfold Popup.hasTitle; apply String.eqb_refl).
  cbn [negb]. cbv iota.
  destruct (Popup.websiteItems _); reflexivity.
Qed.

(** The groups after [removeWebsiteFromGroup], whether the list in the
    popup could be updated or not. *)
Lemma removeWebsiteFromGroup_groups (st : Popup.State) (before after : list Group)
      (g : Group) (w : string) :
  Popup.groups st = before ++ g :: after ->
  existsb (Popup.hasTitle (title g)) before = false ->
  Popup.groups (Popup.stateOf (Popup.removeWebsiteFromGroup (title g) w st))
  = before
    ++ Popup.setWebsites
         (JsArray.splice1 (websites g) (JsArray.indexOf (websites g) w)) g
    :: after.
Proof.
  intros Hgs Hb. unfold Popup.removeWebsiteFromGroup.
  rewrite Hgs, (findIndex_first _ before after g Hb), get_middle, Nat2Z.id,
    set_middle by (unfold Popup.hasTitle; apply String.eqb_refl).
  destruct (JsArray.get _ _) as [groupDiv|]; [|reflexivity].
  destruct (Popup.websiteItems _) as [items|]; [|reflexivity].
  destruct (JsArray.get items _); reflexivity.
Qed.

(** C8: a group without websites has none again after [addWebsiteToGroup]
    and [removeWebsiteFromGroup] of the same website, as for the group
    "Work" and "twitter.com"; the other groups stay as they are. *)
Theorem add_then_remove_website (st : Popup.State) (before after : list Group)
        (g : Group) (w : string) (groupDiv : nat) :
  Popup.groups st = before ++ g :: after ->
  existsb (Popup.hasTitle (title g)) before = false ->
  websites g = [] ->
  let st1 := Popup.stateOf (Popup.addWebsiteToGroup w (title g) groupDiv st) in
  let st2 := Popup.stateOf (Popup.removeWebsiteFromGroup (title g) w st1) in
  Popup.groups st1 = before ++ Popup.setWebsites [w] g :: after
  /\ Popup.groups st2 = before ++ Popup.setWebsites [] g :: after
  /\ Popup.groups st2 = Popup.groups st.
Proof.
  intros Hgs Hb Hws st1 st2.
  assert (H1 : Popup.groups st1 = before ++ Popup.setWebsites [w] g :: after).
  { subst st1. rewrite (addWebsiteToGroup_groups st before after g w groupDiv Hgs Hb).
    - now rewrite Hws.
    - now rewrite Hws. }
  assert (H2 : Popup.groups st2 = before ++ Popup.setWebsites [] g :: after).
  { subst st2.
    change (title g) with (title (Popup.setWebsites [w] g)).
    rewrite (removeWebsiteFromGroup_groups st1 before after
               (Popup.setWebsites [w] g) w H1 Hb).
    unfold JsArray.indexOf, JsArray.findIndex. simpl.
    now rewrite String.eqb_refl. }
  repeat split; [exact H1 | exact H2|].
  rewrite H2, Hgs. destruct g as [t ws a e]. simpl in Hws. subst ws. reflexivity.
Qed.

Lemma add_then_remove_website_witness :
  let st := Popup.stateOf (Popup.addGroup "Work" Popup.initial) in
  let g := mkGroup "Work" [] true true in
  let st1 := Popup.stateOf (Popup.addWebsiteToGroup "twitter.com" "Work" 0 st) in
  let st2 := Popup.stateOf (Popup.removeWebsiteFromGroup "Work" "twitter.com" st1) in
  Popup.groups st1 = [] ++ Popup.setWebsites ["twitter.com"] g :: []
  /\ Popup.groups st2 = [] ++ Popup.setWebsites [] g :: []
  /\ Popup.groups st2 = Popup.groups st.
Proof.
  apply (add_then_remove_website
           (Popup.stateOf (Popup.addGroup "Work" Popup.initial))
           [] [] (mkGroup "Work" [] true true) "twitter.com" 0);
    reflexivity.
Defined.

(** The path from the popup's input: "twitter.com" is valid and is its own
    base domain, and with the group's list on display both calls return
    and save. *)
Lemma twitter_round_trip_saved :
  let st := Popup.stateOf (Popup.addGroup "Work" Popup.initial) in
  let g := mkGroup "Work" [] true true in
  let added := Popup.addWebsiteToThisGroup UrlStandard.newURL g 0 "twitter.com" st in
  let removed := Popup.removeWebsiteFromGroup "Work" "twitter.com" (Popup.stateOf added) in
  added = Popup.addWebsiteToGroup "twitter.com" "Work" 0 st
  /\ Popup.storage (Popup.stateOf added)
     = Some (Js.ofGroups [mkGroup "Work" ["twitter.com"] true true])
  /\ Popup.storage (Popup.stateOf removed) = Some (Js.ofGroups [g])
  /\ Popup.websiteItems (Popup.elements (Popup.stateOf removed) 0) = Some [].
Proof. repeat split; reflexivity. Qed.

(** C10: when the group holds websites but not [w],
    [removeWebsiteFromGroup] takes the group's last website away; the
    exception of the popup's [removeChild] then ends the call before the
    save. *)
Theorem removeWebsite_absent (st : Popup.State) (before after : list Group)
        (g : Group) (w : string) :
  Popup.groups st = before ++ g :: after ->
  existsb (Popup.hasTitle (title g)) before = false ->
  websites g <> [] ->
  JsArray.includes (websites g) w = false ->
  let st' := Popup.stateOf (Popup.removeWebsiteFromGroup (title g) w st) in
  Popup.groups st'
  = before ++ Popup.setWebsites (removelast (websites g)) g :: after
  /\ removelast (websites g) <> websites g
  /\ Popup.removeWebsiteFromGroup (title g) w st = Popup.Thrown st'
  /\ Popup.storage st' = Popup.storage st.
Proof.
  intros Hgs Hb Hne Hw st'.
  assert (Hgroups := removeWebsiteFromGroup_groups st before after g w Hgs Hb).
  rewrite (indexOf_absent _ _ Hw), splice1_minus_one in Hgroups.
  split; [exact Hgroups|]. split; [now apply removelast_shorter|].
  subst st'. unfold Popup.removeWebsiteFromGroup.
  rewrite Hgs, (findIndex_first _ before after g Hb), get_middle,
    (indexOf_absent _ _ Hw)
    by (unfold Popup.hasTitle; apply String.eqb_refl).
  destruct (JsArray.get _ _) as [groupDiv|]; [|split; reflexivity].
  destruct (Popup.websiteItems _) as [items|]; [|split; reflexivity].
  rewrite get_negative by lia. split; reflexivity.
Qed.

Lemma removeWebsite_absent_witness :
  let g := mkGroup "Work" ["twitter.com"; "reddit.com"] true true in
  let st :=
    Popup.stateOf
      (Popup.addWebsiteToGroup "reddit.com" "Work" 0
         (Popup.stateOf
            (Popup.addWebsiteToGroup "twitter.com" "Work" 0
               (Popup.stateOf (Popup.addGroup "Work" Popup.initial))))) in
  let st' := Popup.stateOf (Popup.removeWebsiteFromGroup "Work" "x.com" st) in
  Popup.groups st'
  = [] ++ Popup.setWebsites (removelast ["twitter.com"; "reddit.com"]) g :: []
  /\ removelast ["twitter.com"; "reddit.com"] <> ["twitter.com"; "reddit.com"]
  /\ Popup.removeWebsiteFromGroup "Work" "x.com" st = Popup.Thrown st'
  /\ Popup.storage st' = Popup.storage st.
Proof.
  apply (removeWebsite_absent
           (Popup.stateOf
              (Popup.addWebsiteToGroup "reddit.com" "Work" 0
                 (Popup.stateOf
                    (Popup.addWebsiteToGroup "twitter.com" "Work" 0
                       (Popup.stateOf (Popup.addGroup "Work" Popup.initial))))))
           [] [] (mkGroup "Work" ["twitter.com"; "reddit.com"] true true) "x.com").
  - reflexivity.
  - reflexivity.
  - discriminate.
  - reflexivity.
Defined.

(** * Further properties *)

(** ** More on the background script *)

(** Nothing is compiled exactly when no active group holds a website:
    for no groups, for inactive groups and for active groups that are
    empty. *)
Theorem compile_empty_iff (groups : list Group) :
  Background.compile groups = [] <->
  (forall g, In g groups -> active g = true -> websites g = []).
Proof.
  rewrite compile_nil_iff. split.
  - intros Hnil g Hg Ha. destruct (websites g) as [|w ws] eqn:Hws; [reflexivity|].
    assert (Hin : In w (Background.activeWebsites groups)).
    { apply in_activeWebsites. exists g. rewrite Hws. simpl. auto. }
    rewrite Hnil in Hin. destruct Hin.
  - intros Hall. destruct (Background.activeWebsites groups) as [|w ws] eqn:E;
      [reflexivity|].
    assert (Hin : In w (Background.activeWebsites groups)) by (rewrite E; simpl; auto).
    apply in_activeWebsites in Hin. destruct Hin as (g & Hg & Ha & Hw).
    rewrite (Hall g Hg Ha) in Hw. destruct Hw.
Qed.

Lemma append_cancel_r (s1 s2 t : string) :
  (s1 ++ t)%string = (s2 ++ t)%string -> s1 = s2.
Proof.
  revert s2. induction s1 as [|c s1 IH]; intros s2 H.
  - destruct s2 as [|d s2]; [reflexivity|].
    apply (f_equal String.length) in H. rewrite !length_append in H.
    simpl in H. lia.
  - destruct s2 as [|d s2].
    + apply (f_equal String.length) in H. rewrite !length_append in H.
      simpl in H. lia.
    + simpl in H. injection H as -> H. f_equal. now apply IH.
Qed.

Lemma prefix_append (p s : string) : String.prefix p (p ++ s) = true.
Proof.
  induction p as [|c p IH]; simpl; [now destruct s|].
  destruct (ascii_dec c c); [exact IH | contradiction].
Qed.

Lemma exactPattern_inj (w w' : string) :
  Background.exactPattern w = Background.exactPattern w' -> w = w'.
Proof.
  unfold Background.exactPattern. intros H.
  injection H as H. now apply append_cancel_r in H.
Qed.

Lemma subdomainPattern_inj (w w' : string) :
  Background.subdomainPattern w = Background.subdomainPattern w' -> w = w'.
Proof.
  unfold Background.subdomainPattern. intros H.
  injection H as H. now apply append_cancel_r in H.
Qed.

Lemma exact_is_subdomain (w w' : string) :
  Background.exactPattern w = Background.subdomainPattern w' ->
  String.prefix "*." w = true.
Proof.
  unfold Background.exactPattern, Background.subdomainPattern. intros H.
  injection H as H.
  change (String "*" (String "." (w' ++ "/*")))
    with (("*." ++ w') ++ "/*")%string in H.
  apply append_cancel_r in H. subst w. apply prefix_append.
Qed.

(** When the websites of the active groups are all different and none
    begins with "*.", no pattern is compiled twice. *)
Theorem compile_NoDup (groups : list Group) :
  NoDup (Background.activeWebsites groups) ->
  Forall (fun w => String.prefix "*." w = false) (Background.activeWebsites groups) ->
  NoDup (Background.compile groups).
Proof.
  unfold Background.compile.
  induction (Background.activeWebsites groups) as [|w sites IH]; intros Hnd Hstar.
  - constructor.
  - inversion Hnd as [|? ? Hnotin Hnd']; subst.
    inversion Hstar as [|? ? Hw Hstar']; subst.
    change (Background.urlPatterns (w :: sites))
      with (Background.exactPattern w :: Background.subdomainPattern w
            :: Background.urlPatterns sites).
    constructor; [|constructor; [|now apply IH]].
    + intros [H | H].
      * symmetry in H. apply exact_is_subdomain in H. congruence.
      * apply in_urlPatterns in H. destruct H as (w' & Hw' & [H | H]).
        -- apply exactPattern_inj in H. subst w'. contradiction.
        -- apply exact_is_subdomain in H. congruence.
    + intros H. apply in_urlPatterns in H. destruct H as (w' & Hw' & [H | H]).
      * symmetry in H. apply exact_is_subdomain in H.
        rewrite Forall_forall in Hstar'. rewrite (Hstar' w' Hw') in H. discriminate.
      * apply subdomainPattern_inj in H. subst w'. contradiction.
Qed.

Lemma compile_NoDup_witness :
  NoDup (Background.compile [mkGroup "Focus" ["reddit.com"; "x.com"] true true;
                             mkGroup "Later" ["x.com"] false true]).
Proof.
  apply compile_NoDup.
  - repeat constructor; simpl; intuition discriminate.
  - repeat constructor.
Defined.

(** The listener that a reachable state holds was made before: its number
    is below the count of closures. *)
Lemma reachable_closures st :
  Background.reachable st ->
  forall l, Background.currentListener st = Some l -> l < Background.closures st.
Proof.
  induction 1 as [|stored st _ IH]; intros l; [discriminate|].
  unfold Background.loadAndBlockWebsites.
  destruct (0 <? length _)%nat.
  - destruct (Background.currentListener st); simpl; intros E;
      injection E as <-; lia.
  - unfold Background.consoleLog. cbn [Background.currentListener].
    destruct (Background.currentListener st) eqn:E; cbn; intros H; [discriminate|].
    discriminate.
Qed.

(** In every state of the script, either nothing is registered and there
    is no current listener, or exactly one listener is registered: the
    current one, with a non-empty pattern list. *)
Theorem reachable_rule_state (st : Background.State) :
  Background.reachable st ->
  (Background.ruleState st = Background.Uninstalled
   /\ Background.currentListener st = None
   /\ Background.registered st = [])
  \/ (exists l patterns,
         Background.ruleState st = Background.Installed patterns
         /\ Background.currentListener st = Some l
         /\ Background.registered st = [(l, patterns)]
         /\ patterns <> []
         /\ l < Background.closures st).
Proof.
  intros Hreach.
  destruct (reachable_oneListener st Hreach) as [[Hc Hr] | (l & ps & Hc & Hr & Hne)].
  - left. unfold Background.ruleState. rewrite Hc. auto.
  - right. exists l, ps. unfold Background.ruleState. rewrite Hc, Hr. simpl.
    rewrite Nat.eqb_refl. repeat split; auto.
    now apply reachable_closures.
Qed.

Lemma reachable_rule_state_witness :
  let st := Background.loadAndBlockWebsites
              (Some [mkGroup "Focus" ["reddit.com"] true true]) Background.initial in
  (Background.ruleState st = Background.Uninstalled
   /\ Background.currentListener st = None
   /\ Background.registered st = [])
  \/ (exists l patterns,
         Background.ruleState st = Background.Installed patterns
         /\ Background.currentListener st = Some l
         /\ Background.registered st = [(l, patterns)]
         /\ patterns <> []
         /\ l < Background.closures st).
Proof.
  apply reachable_rule_state.
  apply Background.reachable_load, Background.reachable_initial.
Defined.

(** After a load the rule state is decided by the stored groups alone,
    whatever was installed before: [Uninstalled] when they compile to
    nothing, [Installed] of the compiled patterns otherwise. *)
Theorem load_rule_state (stored : option (list Group)) (st : Background.State) :
  Background.reachable st ->
  Background.ruleState (Background.loadAndBlockWebsites stored st)
  = match Background.compile (match stored with Some gs => gs | None => [] end) with
    | [] => Background.Uninstalled
    | patterns => Background.Installed patterns
    end.
Proof.
  intros Hreach. apply reachable_oneListener in Hreach.
  unfold Background.loadAndBlockWebsites, Background.compile.
  set (sites := Background.activeWebsites _).
  destruct sites as [|w sites].
  - cbn [length Nat.ltb Nat.leb Background.urlPatterns flat_map].
    unfold Background.consoleLog. cbn [Background.currentListener].
    destruct Hreach as [[Hc Hr] | (l & ps & Hc & Hr & _)]; rewrite Hc.
    + unfold Background.ruleState. simpl. try rewrite Hc. reflexivity.
    + unfold Background.ruleState. reflexivity.
  - change (0 <? length (w :: sites))%nat with true. cbv iota.
    destruct Hreach as [[Hc Hr] | (l & ps & Hc & Hr & _)];
      unfold Background.ruleState; rewrite Hc; simpl.
    + rewrite Hr. simpl. now rewrite Nat.eqb_refl.
    + rewrite Hr, filter_self_removed. simpl. now rewrite Nat.eqb_refl.
Qed.

Lemma load_rule_state_witness :
  Background.ruleState
    (Background.loadAndBlockWebsites
       (Some [mkGroup "Focus" ["reddit.com"] false true])
       (Background.loadAndBlockWebsites
          (Some [mkGroup "Focus" ["reddit.com"] true true]) Background.initial))
  = Background.Uninstalled.
Proof.
  apply (load_rule_state (Some [mkGroup "Focus" ["reddit.com"] false true])).
  apply Background.reachable_load, Background.reachable_initial.
Defined.

(** A load that finds nothing to block logs it and removes the current
    listener, if there is one; it makes no closure and registers
    nothing. *)
Theorem load_nothing_to_block (stored : option (list Group)) (st : Background.State) :
  Background.reachable st ->
  Background.compile (match stored with Some gs => gs | None => [] end) = [] ->
  let st' := Background.loadAndBlockWebsites stored st in
  Background.calls st'
  = Background.calls st
    ++ Background.ConsoleLog "No websites to block."
    :: match Background.currentListener st with
       | Some l => [Background.RemoveListener l]
       | None => []
       end
  /\ Background.registered st' = []
  /\ Background.currentListener st' = None
  /\ Background.closures st' = Background.closures st.
Proof.
  intros Hreach Hnil st'. apply reachable_oneListener in Hreach.
  apply compile_nil_iff in Hnil.
  subst st'. unfold Background.loadAndBlockWebsites. rewrite Hnil.
  cbn [length Nat.ltb Nat.leb].
  unfold Background.consoleLog. cbn [Background.currentListener].
  destruct Hreach as [[Hc Hr] | (l & ps & Hc & Hr & _)]; rewrite Hc; simpl.
  - rewrite Hr. auto.
  - rewrite Hr, filter_self_removed, <- app_assoc. auto.
Qed.

Lemma load_nothing_to_block_witness :
  let st := Background.loadAndBlockWebsites
              (Some [mkGroup "Focus" ["reddit.com"] true true]) Background.initial in
  let st' := Background.loadAndBlockWebsites None st in
  Background.calls st'
  = Background.calls st
    ++ Background.ConsoleLog "No websites to block."
    :: match Background.currentListener st with
       | Some l => [Background.RemoveListener l]
       | None => []
       end
  /\ Background.registered st' = []
  /\ Background.currentListener st' = None
  /\ Background.closures st' = Background.closures st.
Proof.
  apply (load_nothing_to_block None).
  - apply Background.reachable_load, Background.reachable_initial.
  - reflexivity.
Defined.

(** The first install: from [Uninstalled], a load with websites to block
    registers one new listener for the compiled patterns and removes
    none. *)
Theorem load_first_install (groups : list Group) (st : Background.State) :
  Background.reachable st ->
  Background.ruleState st = Background.Uninstalled ->
  Background.compile groups <> [] ->
  let st' := Background.loadAndBlockWebsites (Some groups) st in
  Background.calls st'
  = Background.calls st
    ++ [Background.AddListener (Background.closures st) (Background.compile groups)]
  /\ Background.registered st'
     = [(Background.closures st, Background.compile groups)]
  /\ Background.currentListener st' = Some (Background.closures st).
Proof.
  intros Hreach Hun Hne st'. apply reachable_oneListener in Hreach.
  assert (Hc : Background.currentListener st = None
               /\ Background.registered st = []).
  { destruct Hreach as [H | (l & ps & Hc & Hr & _)]; [exact H|].
    unfold Background.ruleState in Hun. rewrite Hc, Hr in Hun. simpl in Hun.
    rewrite Nat.eqb_refl in Hun. discriminate. }
  destruct Hc as [Hc Hr].
  assert (Hlen : (0 <? length (Background.activeWebsites groups))%nat = true).
  { apply Nat.ltb_lt. destruct (Background.activeWebsites groups) eqn:E.
    - exfalso. apply Hne. now apply compile_nil_iff.
    - simpl. lia. }
  subst st'. unfold Background.loadAndBlockWebsites. rewrite Hlen, Hc. simpl.
  rewrite Hr. auto.
Qed.

Lemma load_first_install_witness :
  let groups := [mkGroup "Focus" ["reddit.com"] true true] in
  let st' := Background.loadAndBlockWebsites (Some groups) Background.initial in
  Background.calls st'
  = Background.calls Background.initial
    ++ [Background.AddListener (Background.closures Background.initial)
                               (Background.compile groups)]
  /\ Background.registered st'
     = [(Background.closures Background.initial, Background.compile groups)]
  /\ Background.currentListener st' = Some (Background.closures Background.initial).
Proof.
  apply (load_first_install [mkGroup "Focus" ["reddit.com"] true true]
                            Background.initial).
  - apply Background.reachable_initial.
  - reflexivity.
  - discriminate.
Defined.

(** ** More facts about arrays *)

Lemma existsb_first {A : Type} (p : A -> bool) (arr : list A) :
  existsb p arr = true ->
  exists before x after,
    arr = before ++ x :: after /\ existsb p before = false /\ p x = true.
Proof.
  induction arr as [|y arr IH]; simpl; [discriminate|].
  destruct (p y) eqn:Hy.
  - intros _. exists [], y, arr. auto.
  - simpl. intros H. destruct (IH H) as (before & x & after & -> & Hb & Hx).
    exists (y :: before), x, after. simpl. rewrite Hy. auto.
Qed.

(** The element at the index that [findIndex] answers is the first one
    that satisfies the test. *)
Lemma get_findIndex {A : Type} (p : A -> bool) (arr : list A) (x : A) :
  JsArray.get arr (JsArray.findIndex p arr) = Some x ->
  exists before after,
    arr = before ++ x :: after /\ existsb p before = false /\ p x = true.
Proof.
  destruct (existsb p arr) eqn:E.
  - destruct (existsb_first p arr E) as (before & y & after & -> & Hb & Hy).
    rewrite (findIndex_first p before after y Hb Hy), get_middle.
    intros [= <-]. eauto.
  - rewrite (findIndex_absent p arr E), get_negative by lia. discriminate.
Qed.

Lemma get_findIndex_absent {A : Type} (p : A -> bool) (arr : list A) :
  existsb p arr = false -> JsArray.get arr (JsArray.findIndex p arr) = None.
Proof. intros E. now rewrite (findIndex_absent p arr E), get_negative by lia. Qed.

(** [splice(start, 1)] takes at most one element out and keeps the
    others in order. *)
Lemma splice1_cases {A : Type} (arr : list A) (start : Z) :
  JsArray.splice1 arr start = arr
  \/ exists before x after,
       arr = before ++ x :: after /\ JsArray.splice1 arr start = before ++ after.
Proof.
  unfold JsArray.splice1. set (k := Z.to_nat _).
  assert (Hsplit := firstn_skipn k arr).
  assert (Hnext : skipn (S k) arr = skipn 1 (skipn k arr)).
  { change (S k) with (1 + k). now rewrite skipn_skipn. }
  rewrite Hnext. destruct (skipn k arr) as [|x rest].
  - left. simpl. rewrite app_nil_r in *. exact Hsplit.
  - right. exists (firstn k arr), x, rest. split; [now symmetry | reflexivity].
Qed.

Lemma map_splice1 {A B : Type} (f : A -> B) (arr : list A) (start : Z) :
  map f (JsArray.splice1 arr start) = JsArray.splice1 (map f arr) start.
Proof.
  unfold JsArray.splice1. now rewrite length_map, map_app, firstn_map, skipn_map.
Qed.

Lemma NoDup_splice1 {A : Type} (arr : list A) (start : Z) :
  NoDup arr -> NoDup (JsArray.splice1 arr start).
Proof.
  intros H. destruct (splice1_cases arr start) as [-> | (b & x & a & E & ->)];
    [exact H|].
  rewrite E in H. now apply NoDup_remove_1 in H.
Qed.

Lemma Forall_splice1 {A : Type} (P : A -> Prop) (arr : list A) (start : Z) :
  Forall P arr -> Forall P (JsArray.splice1 arr start).
Proof.
  intros H. destruct (splice1_cases arr start) as [-> | (b & x & a & E & ->)];
    [exact H|].
  rewrite E in H. apply Forall_app in H as [Hb Ha].
  apply Forall_app. split; [exact Hb | now inversion Ha].
Qed.

Lemma get_nth_error {A : Type} (arr : list A) (i : Z) (x : A) :
  JsArray.get arr i = Some x -> nth_error arr (Z.to_nat i) = Some x.
Proof. unfold JsArray.get. destruct (i <? 0)%Z; [discriminate | auto]. Qed.

Lemma set_nth_error {A : Type} (arr : list A) (i : nat) (x y : A) :
  nth_error arr i = Some x ->
  exists before after,
    arr = before ++ x :: after /\ JsArray.set arr i y = before ++ y :: after.
Proof.
  intros H. destruct (nth_error_split arr i H) as (b & a & -> & <-).
  exists b, a. split; [reflexivity | apply set_middle].
Qed.

Lemma includes_In (arr : list string) (x : string) :
  JsArray.includes arr x = true <-> In x arr.
Proof.
  unfold JsArray.includes. rewrite existsb_exists. split.
  - intros (y & Hy & E). apply String.eqb_eq in E. now subst.
  - intros H. exists x. split; [exact H | apply String.eqb_refl].
Qed.

Lemma includes_not_In (arr : list string) (x : string) :
  JsArray.includes arr x = false <-> ~ In x arr.
Proof.
  rewrite <- includes_In. destruct (JsArray.includes arr x); split; congruence.
Qed.

Lemma hasTitle_In (t : string) (gs : list Group) :
  existsb (Popup.hasTitle t) gs = true <-> In t (map title gs).
Proof.
  rewrite existsb_exists, in_map_iff. unfold Popup.hasTitle. split.
  - intros (g & Hg & E). apply String.eqb_eq in E. eauto.
  - intros (g & E & Hg). exists g. split; [exact Hg | now apply String.eqb_eq].
Qed.

Lemma hasTitle_not_In (t : string) (gs : list Group) :
  existsb (Popup.hasTitle t) gs = false <-> ~ In t (map title gs).
Proof.
  rewrite <- hasTitle_In. destruct (existsb _ gs); split; congruence.
Qed.

(** ** What the operations keep *)

Lemma NoDup_push (sites : list string) (w : string) :
  NoDup sites -> JsArray.includes sites w = false -> NoDup (JsArray.push sites w).
Proof.
  intros Hnd Hw. apply includes_not_In in Hw. unfold JsArray.push.
  apply NoDup_app; [exact Hnd | repeat constructor; simpl; tauto|].
  intros x Hx [<- | []]. contradiction.
Qed.

(** The three calls that change one group replace it by a group of the
    same title whose websites are still all different. *)
Lemma group_replaced (op : Popup.operation) (st : Popup.State) :
  match op with
  | Popup.AddGroup _ | Popup.RemoveGroup _ => False
  | _ => True
  end ->
  Popup.groups (Popup.stateOf (Popup.perform op st)) = Popup.groups st
  \/ exists i g g',
       nth_error (Popup.groups st) i = Some g
       /\ Popup.groups (Popup.stateOf (Popup.perform op st))
          = JsArray.set (Popup.groups st) i g'
       /\ title g' = title g
       /\ (NoDup (websites g) -> NoDup (websites g')).
Proof.
  destruct op as [typed|t|w t d|t w|t]; intros Hop; try contradiction; simpl.
  - unfold Popup.addWebsiteToGroup.
    destruct (JsArray.get _ _) as [g|] eqn:Hg; [|now left].
    destruct (JsArray.includes (websites g) w) eqn:Hw; [now left|].
    right. exists (Z.to_nat (JsArray.findIndex (Popup.hasTitle t) (Popup.groups st))), g,
      (Popup.setWebsites (JsArray.push (websites g) w) g).
    split; [now apply get_nth_error|]. split.
    + cbn [negb]. cbv iota. destruct (Popup.websiteItems _); reflexivity.
    + split; [reflexivity|]. intros Hnd. now apply NoDup_push.
  - unfold Popup.removeWebsiteFromGroup.
    destruct (JsArray.get (Popup.groups st) _) as [g|] eqn:Hg; [|now left].
    right. exists (Z.to_nat (JsArray.findIndex (Popup.hasTitle t) (Popup.groups st))), g,
      (Popup.setWebsites
         (JsArray.splice1 (websites g) (JsArray.indexOf (websites g) w)) g).
    split; [now apply get_nth_error|]. split.
    + destruct (JsArray.get (Popup.children _) _) as [groupDiv|]; [|reflexivity].
      destruct (Popup.websiteItems _) as [items|]; [|reflexivity].
      destruct (JsArray.get items _); reflexivity.
    + split; [reflexivity|]. apply NoDup_splice1.
  - unfold Popup.toggleGroupActivity.
    destruct (JsArray.get _ _) as [g|] eqn:Hg; [|now left].
    right. exists (Z.to_nat (JsArray.findIndex (Popup.hasTitle t) (Popup.groups st))), g,
      (mkGroup (title g) (websites g) (negb (active g)) (expanded g)).
    split; [now apply get_nth_error|]. repeat split; auto.
Qed.

Lemma groups_after_addGroup (typed : string) (st : Popup.State) :
  Popup.groups (Popup.stateOf (Popup.addGroup typed st)) = Popup.groups st
  \/ (existsb (Popup.hasTitle (JsString.trim typed)) (Popup.groups st) = false
      /\ Popup.groups (Popup.stateOf (Popup.addGroup typed st))
         = Popup.groups st ++ [mkGroup (JsString.trim typed) [] true true]).
Proof.
  unfold Popup.addGroup.
  destruct (JsString.trim typed =? "")%string; [now left|].
  destruct (existsb _ _) eqn:E; [now left|]. right. split; reflexivity.
Qed.

Lemma groups_after_removeGroup (t : string) (st : Popup.State) :
  Popup.groups (Popup.stateOf (Popup.removeGroup t st))
  = JsArray.splice1 (Popup.groups st)
      (JsArray.findIndex (Popup.hasTitle t) (Popup.groups st)).
Proof. unfold Popup.removeGroup. destruct (JsArray.get _ _); reflexivity. Qed.

(** Whatever the call and however it ends, groups with different titles
    stay groups with different titles. *)
Theorem perform_uniqueTitles (op : Popup.operation) (st : Popup.State) :
  Popup.uniqueTitles (Popup.groups st) ->
  Popup.uniqueTitles (Popup.groups (Popup.stateOf (Popup.perform op st))).
Proof.
  unfold Popup.uniqueTitles. intros Hnd.
  destruct op as [typed|t|w t d|t w|t].
  - simpl. destruct (groups_after_addGroup typed st) as [-> | [Hnew ->]];
      [exact Hnd|].
    rewrite map_app. apply hasTitle_not_In in Hnew.
    apply NoDup_app; [exact Hnd | repeat constructor; simpl; tauto|].
    intros x Hx [<- | []]. contradiction.
  - simpl. rewrite groups_after_removeGroup, map_splice1. now apply NoDup_splice1.
  - destruct (group_replaced (Popup.AddWebsiteToGroup w t d) st I)
      as [-> | (i & g & g' & Hi & -> & Ht & _)]; [exact Hnd|].
    destruct (set_nth_error _ i g g' Hi) as (b & a & E & ->).
    rewrite E in Hnd. rewrite map_app in *. simpl in *. now rewrite Ht.
  - destruct (group_replaced (Popup.RemoveWebsiteFromGroup t w) st I)
      as [-> | (i & g & g' & Hi & -> & Ht & _)]; [exact Hnd|].
    destruct (set_nth_error _ i g g' Hi) as (b & a & E & ->).
    rewrite E in Hnd. rewrite map_app in *. simpl in *. now rewrite Ht.
  - destruct (group_replaced (Popup.ToggleGroupActivity t) st I)
      as [-> | (i & g & g' & Hi & -> & Ht & _)]; [exact Hnd|].
    destruct (set_nth_error _ i g g' Hi) as (b & a & E & ->).
    rewrite E in Hnd. rewrite map_app in *. simpl in *. now rewrite Ht.
Qed.

(** Whatever the call and however it ends, no group comes to hold a
    website twice. *)
Theorem perform_uniqueWebsites (op : Popup.operation) (st : Popup.State) :
  Popup.uniqueWebsites (Popup.groups st) ->
  Popup.uniqueWebsites (Popup.groups (Popup.stateOf (Popup.perform op st))).
Proof.
  unfold Popup.uniqueWebsites. intros Hall.
  assert (Hreplace : forall op',
             match op' with
             | Popup.AddGroup _ | Popup.RemoveGroup _ => False
             | _ => True
             end ->
             Forall (fun group => NoDup (websites group))
                    (Popup.groups (Popup.stateOf (Popup.perform op' st)))).
  { intros op' Hop.
    destruct (group_replaced op' st Hop) as [-> | (i & g & g' & Hi & -> & _ & Hg')];
      [exact Hall|].
    destruct (set_nth_error _ i g g' Hi) as (b & a & E & ->).
    rewrite E in Hall. apply Forall_app in Hall as [Hb Ha].
    apply Forall_app. split; [exact Hb|].
    inversion Ha; subst. constructor; auto. }
  destruct op as [typed|t|w t d|t w|t]; try (apply Hreplace; exact I).
  - simpl. destruct (groups_after_addGroup typed st) as [-> | [_ ->]];
      [exact Hall|].
    apply Forall_app. split; [exact Hall|]. repeat constructor.
  - simpl. rewrite groups_after_removeGroup. now apply Forall_splice1.
Qed.

(** A call that returns has either saved the groups or left both the
    groups and the storage as they were; so the storage holds the groups
    in memory after it, if it did before. *)
Theorem perform_mirrored (op : Popup.operation) (st st' : Popup.State) :
  Popup.perform op st = Popup.Returned st' ->
  (Popup.mirrored st'
   \/ (Popup.groups st' = Popup.groups st /\ Popup.storage st' = Popup.storage st))
  /\ (Popup.mirrored st -> Popup.mirrored st').
Proof.
  intros Hret.
  assert (H : Popup.mirrored st'
              \/ (Popup.groups st' = Popup.groups st
                  /\ Popup.storage st' = Popup.storage st)).
  { destruct op as [typed|t|w t d|t w|t]; simpl in Hret.
    - unfold Popup.addGroup in Hret.
      destruct (JsString.trim typed =? "")%string; simpl in Hret.
      + injection Hret as <-. auto.
      + destruct (existsb _ _); simpl in Hret; injection Hret as <-;
          [right; split; reflexivity | left; reflexivity].
    - unfold Popup.removeGroup in Hret.
      destruct (JsArray.get _ _); [|discriminate].
      injection Hret as <-. left. reflexivity.
    - unfold Popup.addWebsiteToGroup in Hret.
      destruct (JsArray.get _ _) as [g|]; [|discriminate].
      destruct (JsArray.includes _ _); simpl in Hret.
      + injection Hret as <-. right. split; reflexivity.
      + destruct (Popup.websiteItems _); [|discriminate].
        injection Hret as <-. left. reflexivity.
    - unfold Popup.removeWebsiteFromGroup in Hret.
      destruct (JsArray.get (Popup.groups st) _) as [g|]; [|discriminate].
      destruct (JsArray.get (Popup.children _) _) as [groupDiv|]; [|discriminate].
      destruct (Popup.websiteItems _) as [items|]; [|discriminate].
      destruct (JsArray.get items _); [|discriminate].
      injection Hret as <-. left. reflexivity.
    - unfold Popup.toggleGroupActivity in Hret.
      destruct (JsArray.get _ _) as [g|]; [|discriminate].
      injection Hret as <-. left. reflexivity. }
  split; [exact H|]. intros Hm. destruct H as [H | [Hg Hs]]; [exact H|].
  unfold Popup.mirrored in *. now rewrite Hg, Hs.
Qed.

Lemma perform_uniqueTitles_witness :
  Popup.uniqueTitles
    (Popup.groups
       (Popup.stateOf
          (Popup.perform (Popup.AddGroup "Work")
             (Popup.stateOf (Popup.addGroup "Play" Popup.initial))))).
Proof.
  apply perform_uniqueTitles. repeat constructor. simpl. tauto.
Defined.

Lemma perform_uniqueWebsites_witness :
  Popup.uniqueWebsites
    (Popup.groups
       (Popup.stateOf
          (Popup.perform (Popup.AddWebsiteToGroup "x.com" "Play" 0)
             (Popup.stateOf (Popup.addGroup "Play" Popup.initial))))).
Proof.
  apply perform_uniqueWebsites. repeat constructor.
Defined.

Lemma perform_mirrored_witness :
  let st := Popup.stateOf (Popup.addGroup "Play" Popup.initial) in
  let st' := Popup.stateOf (Popup.addWebsiteToGroup "x.com" "Play" 0 st) in
  (Popup.mirrored st'
   \/ (Popup.groups st' = Popup.groups st /\ Popup.storage st' = Popup.storage st))
  /\ (Popup.mirrored st -> Popup.mirrored st').
Proof.
  apply (perform_mirrored (Popup.AddWebsiteToGroup "x.com" "Play" 0)
                          (Popup.stateOf (Popup.addGroup "Play" Popup.initial))).
  reflexivity.
Defined.

(** ** Calls for a title that no group has *)

(** Without a group of the title, [addWebsiteToGroup],
    [removeWebsiteFromGroup] and [toggleGroupActivity] end with the
    exception of reading [groups[-1]] and change nothing. *)
Theorem missing_title_throws (t : string) (st : Popup.State) :
  existsb (Popup.hasTitle t) (Popup.groups st) = false ->
  (forall w groupDiv, Popup.addWebsiteToGroup w t groupDiv st = Popup.Thrown st)
  /\ (forall w, Popup.removeWebsiteFromGroup t w st = Popup.Thrown st)
  /\ Popup.toggleGroupActivity t st = Popup.Thrown st.
Proof.
  intros H. apply get_findIndex_absent in H.
  unfold Popup.addWebsiteToGroup, Popup.removeWebsiteFromGroup,
    Popup.toggleGroupActivity.
  rewrite H. auto.
Qed.

Lemma missing_title_throws_witness :
  let st := Popup.stateOf (Popup.addGroup "Work" Popup.initial) in
  (forall w groupDiv, Popup.addWebsiteToGroup w "Play" groupDiv st = Popup.Thrown st)
  /\ (forall w, Popup.removeWebsiteFromGroup "Play" w st = Popup.Thrown st)
  /\ Popup.toggleGroupActivity "Play" st = Popup.Thrown st.
Proof.
  apply (missing_title_throws "Play"
           (Popup.stateOf (Popup.addGroup "Work" Popup.initial))).
  reflexivity.
Defined.

Lemma removeGroup_not_found_witness :
  let st := Popup.stateOf
              (Popup.addGroup "Home"
                 (Popup.stateOf (Popup.addGroup "Work" Popup.initial))) in
  Popup.removeGroup "Play" st
  = Popup.Thrown (Popup.setGroups (removelast (Popup.groups st)) st).
Proof.
  apply (removeGroup_not_found
           (Popup.stateOf
              (Popup.addGroup "Home"
                 (Popup.stateOf (Popup.addGroup "Work" Popup.initial))))
           "Play").
  reflexivity.
Defined.

(** ** Websites that the group already holds *)

Lemma hasTitle_refl (g : Group) : Popup.hasTitle (title g) g = true.
Proof. unfold Popup.hasTitle. apply String.eqb_refl. Qed.

(** [addWebsiteToGroup] of a website that the group holds changes
    neither the groups nor the storage nor the popup's list; it logs the
    fact and returns. *)
Theorem addWebsiteToGroup_duplicate (st : Popup.State) (before after : list Group)
        (g : Group) (w : string) (groupDiv : nat) :
  Popup.groups st = before ++ g :: after ->
  existsb (Popup.hasTitle (title g)) before = false ->
  In w (websites g) ->
  Popup.addWebsiteToGroup w (title g) groupDiv st
  = Popup.Returned (Popup.consoleLog "Website already exists in the group" st).
Proof.
  intros Hgs Hb Hw. apply includes_In in Hw. unfold Popup.addWebsiteToGroup.
  rewrite Hgs, (findIndex_first _ before after g Hb (hasTitle_refl g)), get_middle, Hw.
  reflexivity.
Qed.

Lemma addWebsiteToGroup_duplicate_witness :
  let st := Popup.stateOf
              (Popup.addWebsiteToGroup "x.com" "Work" 0
                 (Popup.stateOf (Popup.addGroup "Work" Popup.initial))) in
  Popup.addWebsiteToGroup "x.com" "Work" 0 st
  = Popup.Returned (Popup.consoleLog "Website already exists in the group" st).
Proof.
  apply (addWebsiteToGroup_duplicate
           (Popup.stateOf
              (Popup.addWebsiteToGroup "x.com" "Work" 0
                 (Popup.stateOf (Popup.addGroup "Work" Popup.initial))))
           [] [] (mkGroup "Work" ["x.com"] true true) "x.com" 0).
  - reflexivity.
  - reflexivity.
  - simpl. auto.
Defined.

Lemma indexOf_first (front back : list string) (w : string) :
  ~ In w front ->
  JsArray.indexOf (front ++ w :: back) w = Z.of_nat (length front).
Proof.
  intros H. apply includes_not_In in H. unfold JsArray.indexOf.
  apply findIndex_first; [exact H | apply String.eqb_refl].
Qed.

(** [removeWebsiteFromGroup] of a website that the group holds takes its
    first occurrence out of the first group of the title and keeps the
    other websites in order and the other groups as they are; in a group
    without repetitions the website is gone. *)
Theorem removeWebsite_present (st : Popup.State) (before after : list Group)
        (g : Group) (front back : list string) (w : string) :
  Popup.groups st = before ++ g :: after ->
  existsb (Popup.hasTitle (title g)) before = false ->
  websites g = front ++ w :: back ->
  ~ In w front ->
  Popup.groups (Popup.stateOf (Popup.removeWebsiteFromGroup (title g) w st))
  = before ++ Popup.setWebsites (front ++ back) g :: after
  /\ (NoDup (websites g) -> ~ In w (front ++ back)).
Proof.
  intros Hgs Hb Hws Hfront. split.
  - rewrite (removeWebsiteFromGroup_groups st before after g w Hgs Hb).
    now rewrite Hws, (indexOf_first front back w Hfront), splice1_middle.
  - rewrite Hws. intros Hnd. now apply NoDup_remove_2 in Hnd.
Qed.

Lemma removeWebsite_present_witness :
  let g := mkGroup "Work" ["a.com"; "b.com"; "c.com"] true true in
  let st := Popup.setGroups [g] Popup.initial in
  Popup.groups (Popup.stateOf (Popup.removeWebsiteFromGroup (title g) "b.com" st))
  = [] ++ Popup.setWebsites (["a.com"] ++ ["c.com"]) g :: []
  /\ (NoDup (websites g) -> ~ In "b.com" (["a.com"] ++ ["c.com"])).
Proof.
  apply (removeWebsite_present
           (Popup.setGroups [mkGroup "Work" ["a.com"; "b.com"; "c.com"] true true]
                            Popup.initial)
           [] [] (mkGroup "Work" ["a.com"; "b.com"; "c.com"] true true)
           ["a.com"] ["c.com"] "b.com").
  - reflexivity.
  - reflexivity.
  - reflexivity.
  - simpl. intros [H | []]. discriminate.
Defined.

(** ** Switching a group on and off *)

(** [toggleGroupActivity] flips [active] of the first group of the title,
    changes nothing else in the groups, returns and saves; a second call
    brings the groups back. *)
Theorem toggleGroupActivity_twice (st : Popup.State) (before after : list Group)
        (g : Group) :
  Popup.groups st = before ++ g :: after ->
  existsb (Popup.hasTitle (title g)) before = false ->
  exists st1 st2,
    Popup.toggleGroupActivity (title g) st = Popup.Returned st1
    /\ Popup.groups st1
       = before ++ mkGroup (title g) (websites g) (negb (active g)) (expanded g)
         :: after
    /\ Popup.mirrored st1
    /\ Popup.toggleGroupActivity (title g) st1 = Popup.Returned st2
    /\ Popup.groups st2 = Popup.groups st
    /\ Popup.mirrored st2.
Proof.
  intros Hgs Hb.
  set (g1 := mkGroup (title g) (websites g) (negb (active g)) (expanded g)).
  assert (H1 : Popup.toggleGroupActivity (title g) st
               = Popup.Returned
                   (Popup.saveGroups (Popup.setGroups (before ++ g1 :: after) st))).
  { unfold Popup.toggleGroupActivity.
    rewrite Hgs, (findIndex_first _ before after g Hb (hasTitle_refl g)),
      get_middle, Nat2Z.id, set_middle. reflexivity. }
  eexists. eexists. split; [exact H1|]. split; [reflexivity|].
  split; [reflexivity|].
  assert (H2 : Popup.toggleGroupActivity (title g)
                 (Popup.saveGroups (Popup.setGroups (before ++ g1 :: after) st))
               = Popup.Returned
                   (Popup.saveGroups
                      (Popup.setGroups (before ++ g :: after)
                         (Popup.saveGroups
                            (Popup.setGroups (before ++ g1 :: after) st))))).
  { unfold Popup.toggleGroupActivity. simpl Popup.groups.
    rewrite (findIndex_first _ before after g1 Hb (hasTitle_refl g)),
      get_middle, Nat2Z.id, set_middle.
    subst g1. simpl. rewrite negb_involutive. now destruct g. }
  split; [exact H2|]. split; [now rewrite Hgs | reflexivity].
Qed.

Lemma toggleGroupActivity_twice_witness :
  let g := mkGroup "Work" [] true true in
  let st := Popup.stateOf (Popup.addGroup "Work" Popup.initial) in
  exists st1 st2,
    Popup.toggleGroupActivity (title g) st = Popup.Returned st1
    /\ Popup.groups st1
       = [] ++ mkGroup (title g) (websites g) (negb (active g)) (expanded g) :: []
    /\ Popup.mirrored st1
    /\ Popup.toggleGroupActivity (title g) st1 = Popup.Returned st2
    /\ Popup.groups st2 = Popup.groups st
    /\ Popup.mirrored st2.
Proof.
  apply (toggleGroupActivity_twice
           (Popup.stateOf (Popup.addGroup "Work" Popup.initial))
           [] [] (mkGroup "Work" [] true true)); reflexivity.
Defined.

(** ** The popup's list of groups *)

Lemma Forall2_shows_same (st st' : Popup.State) (gs : list Group) (refs : list nat) :
  (forall r, In r refs -> Popup.elements st' r = Popup.elements st r) ->
  Forall2 (Popup.shows st) gs refs -> Forall2 (Popup.shows st') gs refs.
Proof.
  intros Hsame H. induction H as [|g r gs refs Hg _ IH]; constructor.
  - unfold Popup.shows in *. rewrite Hsame by (simpl; auto). exact Hg.
  - apply IH. intros r' Hr'. apply Hsame. simpl. auto.
Qed.

Lemma Forall2_middle {A B : Type} (R : A -> B -> Prop) (before after : list A)
      (x : A) (l' : list B) :
  Forall2 R (before ++ x :: after) l' ->
  exists before' y after',
    l' = before' ++ y :: after'
    /\ Forall2 R before before' /\ R x y /\ Forall2 R after after'
    /\ length before' = length before.
Proof.
  intros H. apply Forall2_app_inv_l in H.
  destruct H as (before' & rest & Hb & Hrest & ->).
  inversion Hrest as [|? y ? after' Hxy Ha]; subst.
  exists before', y, after'. repeat split; auto.
  symmetry. now apply Forall2_length in Hb.
Qed.

(** What [displayGroup] adds to a container that shows the groups
    [shown]. *)
Lemma displayGroup_shows (shown : list Group) (g : Group) (st : Popup.State) :
  Forall2 (Popup.shows st) shown (Popup.children st) ->
  NoDup (Popup.children st) ->
  Forall (fun r => r < Popup.created st) (Popup.children st) ->
  let st' := Popup.displayGroup g st in
  Forall2 (Popup.shows st') (shown ++ [g]) (Popup.children st')
  /\ NoDup (Popup.children st')
  /\ Forall (fun r => r < Popup.created st') (Popup.children st')
  /\ Popup.groups st' = Popup.groups st
  /\ Popup.storage st' = Popup.storage st.
Proof.
  intros Hshown Hnd Hlt. simpl.
  assert (Hfresh : ~ In (Popup.created st) (Popup.children st)).
  { intros Hin. rewrite Forall_forall in Hlt. apply Hlt in Hin. lia. }
  repeat split.
  - apply Forall2_app.
    + apply (Forall2_shows_same st); [|exact Hshown].
      intros r Hr. simpl. destruct (Nat.eqb_spec r (Popup.created st)); [|reflexivity].
      subst r. contradiction.
    + constructor; [|constructor]. unfold Popup.shows. simpl.
      now rewrite Nat.eqb_refl.
  - apply NoDup_app; [exact Hnd | repeat constructor; simpl; tauto|].
    intros r Hr [<- | []]. contradiction.
  - apply Forall_app. split.
    + eapply Forall_impl; [|exact Hlt]. simpl. intros r Hr. lia.
    + repeat constructor.
Qed.

Lemma displayGroups_shows (rest shown : list Group) (st : Popup.State) :
  Forall2 (Popup.shows st) shown (Popup.children st) ->
  NoDup (Popup.children st) ->
  Forall (fun r => r < Popup.created st) (Popup.children st) ->
  let st' := fold_left (fun st1 group => Popup.displayGroup group st1) rest st in
  Forall2 (Popup.shows st') (shown ++ rest) (Popup.children st')
  /\ NoDup (Popup.children st')
  /\ Forall (fun r => r < Popup.created st') (Popup.children st')
  /\ Popup.groups st' = Popup.groups st
  /\ Popup.storage st' = Popup.storage st.
Proof.
  revert shown st. induction rest as [|g rest IH]; intros shown st Hshown Hnd Hlt.
  - simpl. rewrite app_nil_r. auto.
  - destruct (displayGroup_shows shown g st Hshown Hnd Hlt)
      as (H1 & H2 & H3 & H4 & H5).
    destruct (IH (shown ++ [g]) (Popup.displayGroup g st) H1 H2 H3)
      as (K1 & K2 & K3 & K4 & K5).
    cbn [fold_left]. rewrite <- app_assoc in K1. simpl in K1.
    repeat split; auto; congruence.
Qed.

Lemma opening_shows (loaded : list Group) (st : Popup.State) :
  let st' := Popup.onDOMContentLoaded loaded st in
  Popup.groups st' = loaded
  /\ Popup.displayed st'
  /\ Popup.storage st' = Popup.storage st.
Proof.
  unfold Popup.onDOMContentLoaded, Popup.displayAllGroups.
  destruct (displayGroups_shows loaded []
              (Popup.setChildren [] (Popup.setGroups loaded st))
              (Forall2_nil _) (NoDup_nil _) (Forall_nil _))
    as (H1 & H2 & H3 & H4 & H5).
  cbv zeta. split; [rewrite H4; reflexivity|]. split.
  - unfold Popup.displayed. rewrite H4. repeat split; assumption.
  - rewrite H5. reflexivity.
Qed.

Lemma displayGroups_children (rest : list Group) (st : Popup.State) :
  let st' := fold_left (fun st1 group => Popup.displayGroup group st1) rest st in
  Popup.children st'
  = Popup.children st ++ seq (Popup.created st) (length rest)
  /\ Popup.created st' = Popup.created st + length rest.
Proof.
  revert st. induction rest as [|g rest IH]; intros st.
  - simpl. rewrite app_nil_r. auto.
  - cbn [fold_left length seq]. destruct (IH (Popup.displayGroup g st)) as [H1 H2].
    cbv zeta in *. rewrite H1, H2. simpl. rewrite <- app_assoc. simpl.
    split; [reflexivity | lia].
Qed.

(** When the popup opens, the container is emptied and gets one new
    [div] for each loaded group, in order, and nothing else: it shows the
    groups in memory whatever it held before, and the storage is not
    written. *)
Theorem onDOMContentLoaded_displayed (loaded : list Group) (st : Popup.State) :
  let st' := Popup.onDOMContentLoaded loaded st in
  Popup.groups st' = loaded
  /\ Popup.children st' = seq (Popup.created st) (length loaded)
  /\ Popup.displayed st'
  /\ Popup.storage st' = Popup.storage st.
Proof.
  destruct (opening_shows loaded st) as (H1 & H2 & H3).
  cbv zeta in *. split; [exact H1|]. split; [|split; [exact H2 | exact H3]].
  unfold Popup.onDOMContentLoaded, Popup.displayAllGroups.
  now destruct (displayGroups_children loaded
                  (Popup.setChildren [] (Popup.setGroups loaded st))) as [-> _].
Qed.

(** [addGroup] keeps the container in step with the groups. *)
Theorem addGroup_displayed (typed : string) (st : Popup.State) :
  Popup.displayed st ->
  Popup.displayed (Popup.stateOf (Popup.addGroup typed st)).
Proof.
  intros (Hshown & Hnd & Hlt). unfold Popup.addGroup.
  destruct (JsString.trim typed =? "")%string; [simpl; now repeat split|].
  destruct (existsb _ _); [simpl; now repeat split|].
  cbn [negb Popup.stateOf]. cbv iota.
  set (g := mkGroup (JsString.trim typed) [] true true).
  destruct (displayGroup_shows (Popup.groups st) g
              (Popup.setGroups (JsArray.push (Popup.groups st) g) st)
              Hshown Hnd Hlt) as (H1 & H2 & H3 & H4 & _).
  repeat split; assumption.
Qed.

Lemma addGroup_displayed_witness :
  Popup.displayed
    (Popup.stateOf
       (Popup.addGroup "Work" (Popup.onDOMContentLoaded [] Popup.initial))).
Proof.
  apply addGroup_displayed.
  apply (opening_shows [] Popup.initial).
Defined.

Lemma setElement_other (r r' : nat) (d : Popup.GroupDiv) (st : Popup.State) :
  r' <> r -> Popup.elements (Popup.setElement r d st) r' = Popup.elements st r'.
Proof. intros H. simpl. now destruct (Nat.eqb_spec r' r). Qed.

(** With the container in step, [removeGroup] of a title that a group
    has takes the first such group and its [div] out, returns and saves,
    and the container is in step again. *)
Theorem removeGroup_displayed (st : Popup.State) (before after : list Group)
        (g : Group) :
  Popup.displayed st ->
  Popup.groups st = before ++ g :: after ->
  existsb (Popup.hasTitle (title g)) before = false ->
  exists st',
    Popup.removeGroup (title g) st = Popup.Returned st'
    /\ Popup.groups st' = before ++ after
    /\ Popup.displayed st'
    /\ Popup.mirrored st'.
Proof.
  intros (Hshown & Hnd & Hlt) Hgs Hb. rewrite Hgs in Hshown.
  destruct (Forall2_middle _ _ _ _ _ Hshown)
    as (cb & r & ca & Hch & Hcb & Hr & Hca & Hlen).
  unfold Popup.removeGroup.
  rewrite Hgs, (findIndex_first _ before after g Hb (hasTitle_refl g)), splice1_middle.
  cbn [Popup.children Popup.setGroups]. rewrite Hch, <- Hlen, get_middle, splice1_middle.
  eexists. split; [reflexivity|]. split; [reflexivity|]. split; [|reflexivity].
  rewrite Hch in Hnd, Hlt. repeat split; simpl.
  - apply Forall2_app; [exact Hcb | exact Hca].
  - now apply NoDup_remove_1 in Hnd.
  - apply Forall_app in Hlt as [H1 H2]. apply Forall_app. split; [exact H1|].
    now inversion H2.
Qed.

(** With the container in step and the group expanded,
    [addWebsiteToGroup] of a new website, called with the group's [div],
    appends the website to the group and to the list on display, returns
    and saves. *)
Theorem addWebsiteToGroup_displayed (st : Popup.State) (before after : list Group)
        (g : Group) (w : string) (groupDiv : nat) :
  Popup.displayed st ->
  Popup.groups st = before ++ g :: after ->
  existsb (Popup.hasTitle (title g)) before = false ->
  JsArray.get (Popup.children st) (Z.of_nat (length before)) = Some groupDiv ->
  expanded g = true ->
  ~ In w (websites g) ->
  exists st',
    Popup.addWebsiteToGroup w (title g) groupDiv st = Popup.Returned st'
    /\ Popup.groups st'
       = before ++ Popup.setWebsites (websites g ++ [w]) g :: after
    /\ Popup.websiteItems (Popup.elements st' groupDiv) = Some (websites g ++ [w])
    /\ Popup.displayed st'
    /\ Popup.mirrored st'.
Proof.
  intros (Hshown & Hnd & Hlt) Hgs Hb Hdiv Hexp Hw. rewrite Hgs in Hshown.
  destruct (Forall2_middle _ _ _ _ _ Hshown)
    as (cb & r & ca & Hch & Hcb & Hr & Hca & Hlen).
  rewrite Hch, <- Hlen, get_middle in Hdiv. injection Hdiv as <-.
  unfold Popup.shows in Hr. rewrite Hexp in Hr.
  apply includes_not_In in Hw.
  unfold Popup.addWebsiteToGroup.
  rewrite Hgs, (findIndex_first _ before after g Hb (hasTitle_refl g)),
    get_middle, Hw, Nat2Z.id, set_middle.
  cbn [negb Popup.elements Popup.setGroups]. cbv iota. rewrite Hr.
  eexists. split; [reflexivity|]. split; [reflexivity|].
  split; [simpl; now rewrite Nat.eqb_refl|]. split; [|reflexivity].
  rewrite Hch in Hnd. assert (Hnotin := NoDup_remove_2 _ _ _ Hnd).
  repeat split; cbn [Popup.groups Popup.children Popup.created Popup.saveGroups
                       Popup.setStorage Popup.setElement Popup.setGroups].
  - rewrite Hch. apply Forall2_app; [|constructor].
    + apply (Forall2_shows_same st); [|exact Hcb].
      intros r' Hr'. simpl. destruct (Nat.eqb_spec r' r); [|reflexivity].
      subst r'. exfalso. apply Hnotin, in_or_app. auto.
    + unfold Popup.shows. simpl. now rewrite Nat.eqb_refl, Hexp.
    + apply (Forall2_shows_same st); [|exact Hca].
      intros r' Hr'. simpl. destruct (Nat.eqb_spec r' r); [|reflexivity].
      subst r'. exfalso. apply Hnotin, in_or_app. auto.
  - now rewrite Hch.
  - exact Hlt.
Qed.

(** With the container in step and the group expanded,
    [removeWebsiteFromGroup] of a website that the group holds takes its
    first occurrence out of the group and out of the list on display,
    returns and saves. *)
Theorem removeWebsiteFromGroup_displayed (st : Popup.State)
        (before after : list Group) (g : Group)
        (front back : list string) (w : string) :
  Popup.displayed st ->
  Popup.groups st = before ++ g :: after ->
  existsb (Popup.hasTitle (title g)) before = false ->
  expanded g = true ->
  websites g = front ++ w :: back ->
  ~ In w front ->
  exists st',
    Popup.removeWebsiteFromGroup (title g) w st = Popup.Returned st'
    /\ Popup.groups st' = before ++ Popup.setWebsites (front ++ back) g :: after
    /\ Popup.displayed st'
    /\ Popup.mirrored st'.
Proof.
  intros (Hshown & Hnd & Hlt) Hgs Hb Hexp Hws Hfront. rewrite Hgs in Hshown.
  destruct (Forall2_middle _ _ _ _ _ Hshown)
    as (cb & r & ca & Hch & Hcb & Hr & Hca & Hlen).
  unfold Popup.shows in Hr. rewrite Hexp, Hws in Hr.
  unfold Popup.removeWebsiteFromGroup.
  rewrite Hgs, (findIndex_first _ before after g Hb (hasTitle_refl g)),
    get_middle, Nat2Z.id, set_middle, Hws, (indexOf_first front back w Hfront),
    splice1_middle.
  cbn [Popup.children Popup.elements Popup.setGroups].
  rewrite Hch, <- Hlen, get_middle, Hr, get_middle, splice1_middle.
  eexists. split; [reflexivity|]. split; [reflexivity|]. split; [|reflexivity].
  rewrite Hch in Hnd. assert (Hnotin := NoDup_remove_2 _ _ _ Hnd).
  repeat split; cbn [Popup.groups Popup.children Popup.created Popup.saveGroups
                       Popup.setStorage Popup.setElement Popup.setGroups].
  - rewrite Hch. apply Forall2_app; [|constructor].
    + apply (Forall2_shows_same st); [|exact Hcb].
      intros r' Hr'. simpl. destruct (Nat.eqb_spec r' r); [|reflexivity].
      subst r'. exfalso. apply Hnotin, in_or_app. auto.
    + unfold Popup.shows. simpl. now rewrite Nat.eqb_refl, Hexp.
    + apply (Forall2_shows_same st); [|exact Hca].
      intros r' Hr'. simpl. destruct (Nat.eqb_spec r' r); [|reflexivity].
      subst r'. exfalso. apply Hnotin, in_or_app. auto.
  - now rewrite Hch.
  - exact Hlt.
Qed.

(** [removeGroup] undoes [addGroup]: after adding a group of a new title
    and removing it, the groups and the container are as before, and the
    storage holds the groups. *)
Theorem addGroup_then_removeGroup (typed : string) (st : Popup.State) :
  Popup.displayed st ->
  JsString.trim typed <> "" ->
  existsb (Popup.hasTitle (JsString.trim typed)) (Popup.groups st) = false ->
  exists st1 st2,
    Popup.addGroup typed st = Popup.Returned st1
    /\ Popup.removeGroup (JsString.trim typed) st1 = Popup.Returned st2
    /\ Popup.groups st2 = Popup.groups st
    /\ Popup.children st2 = Popup.children st
    /\ Popup.mirrored st2.
Proof.
  intros (Hshown & _ & _) Ht Hnew.
  assert (Hlen := Forall2_length Hshown).
  unfold Popup.addGroup. apply String.eqb_neq in Ht. rewrite Ht, Hnew.
  cbn [negb]. cbv iota. eexists. eexists. split; [reflexivity|].
  set (g := mkGroup (JsString.trim typed) [] true true).
  unfold Popup.removeGroup.
  cbn [Popup.groups Popup.saveGroups Popup.setStorage Popup.displayGroup
         Popup.createGroupDiv Popup.setChildren Popup.setGroups Popup.children].
  unfold JsArray.push.
  rewrite (findIndex_first _ (Popup.groups st) [] g Hnew (hasTitle_refl g)),
    splice1_middle, Hlen, get_middle, splice1_middle, !app_nil_r.
  repeat split.
Qed.

(** A popup that opens on the storage that an earlier popup left in step
    with its groups loads exactly those groups, also when there are none,
    holds them in memory and shows them. *)
Theorem reopen_restores (earlier st : Popup.State) :
  Popup.mirrored earlier ->
  Popup.storage st = Popup.storage earlier ->
  Popup.loadGroups st = Js.ofGroups (Popup.groups earlier)
  /\ let st' := Popup.onDOMContentLoaded (Popup.groups earlier) st in
     Popup.groups st' = Popup.groups earlier
     /\ Popup.displayed st'
     /\ Popup.mirrored st'.
Proof.
  intros Hm Hst. unfold Popup.mirrored in Hm. rewrite Hm in Hst. split.
  - now rewrite (loadGroups_stored st _ Hst).
  - destruct (opening_shows (Popup.groups earlier) st) as (H1 & H2 & H4).
    cbv zeta. split; [exact H1|]. split; [exact H2|].
    unfold Popup.mirrored. now rewrite H4, H1.
Qed.

Lemma reopen_restores_witness :
  let earlier :=
    Popup.stateOf
      (Popup.addWebsiteToGroup "x.com" "Work" 0
         (Popup.stateOf (Popup.addGroup "Work" Popup.initial))) in
  let st := Popup.setStorage (Popup.storage earlier) Popup.initial in
  Popup.loadGroups st = Js.ofGroups (Popup.groups earlier)
  /\ let st' := Popup.onDOMContentLoaded (Popup.groups earlier) st in
     Popup.groups st' = Popup.groups earlier
     /\ Popup.displayed st'
     /\ Popup.mirrored st'.
Proof.
  apply (reopen_restores
           (Popup.stateOf
              (Popup.addWebsiteToGroup "x.com" "Work" 0
                 (Popup.stateOf (Popup.addGroup "Work" Popup.initial))))).
  - reflexivity.
  - reflexivity.
Defined.

Lemma opened_with_Work_displayed :
  Popup.displayed
    (Popup.onDOMContentLoaded [mkGroup "Work" ["x.com"] true true] Popup.initial).
Proof. apply (opening_shows [mkGroup "Work" ["x.com"] true true]). Qed.

Lemma removeGroup_displayed_witness :
  let g := mkGroup "Work" ["x.com"] true true in
  let st := Popup.onDOMContentLoaded [g] Popup.initial in
  exists st',
    Popup.removeGroup (title g) st = Popup.Returned st'
    /\ Popup.groups st' = [] ++ []
    /\ Popup.displayed st'
    /\ Popup.mirrored st'.
Proof.
  apply (removeGroup_displayed
           (Popup.onDOMContentLoaded [mkGroup "Work" ["x.com"] true true] Popup.initial)
           [] [] (mkGroup "Work" ["x.com"] true true)).
  - exact opened_with_Work_displayed.
  - reflexivity.
  - reflexivity.
Defined.

Lemma addWebsiteToGroup_displayed_witness :
  let g := mkGroup "Work" ["x.com"] true true in
  let st := Popup.onDOMContentLoaded [g] Popup.initial in
  exists st',
    Popup.addWebsiteToGroup "y.com" (title g) 0 st = Popup.Returned st'
    /\ Popup.groups st' = [] ++ Popup.setWebsites (websites g ++ ["y.com"]) g :: []
    /\ Popup.websiteItems (Popup.elements st' 0) = Some (websites g ++ ["y.com"])
    /\ Popup.displayed st'
    /\ Popup.mirrored st'.
Proof.
  apply (addWebsiteToGroup_displayed
           (Popup.onDOMContentLoaded [mkGroup "Work" ["x.com"] true true] Popup.initial)
           [] [] (mkGroup "Work" ["x.com"] true true) "y.com" 0).
  - exact opened_with_Work_displayed.
  - reflexivity.
  - reflexivity.
  - reflexivity.
  - reflexivity.
  - simpl. intros [H | []]. discriminate.
Defined.

Lemma removeWebsiteFromGroup_displayed_witness :
  let g := mkGroup "Work" ["x.com"] true true in
  let st := Popup.onDOMContentLoaded [g] Popup.initial in
  exists st',
    Popup.removeWebsiteFromGroup (title g) "x.com" st = Popup.Returned st'
    /\ Popup.groups st' = [] ++ Popup.setWebsites ([] ++ []) g :: []
    /\ Popup.displayed st'
    /\ Popup.mirrored st'.
Proof.
  apply (removeWebsiteFromGroup_displayed
           (Popup.onDOMContentLoaded [mkGroup "Work" ["x.com"] true true] Popup.initial)
           [] [] (mkGroup "Work" ["x.com"] true true) [] [] "x.com").
  - exact opened_with_Work_displayed.
  - reflexivity.
  - reflexivity.
  - reflexivity.
  - reflexivity.
  - simpl. tauto.
Defined.

Lemma addGroup_then_removeGroup_witness :
  let st := Popup.onDOMContentLoaded [mkGroup "Work" ["x.com"] true true]
                                     Popup.initial in
  exists st1 st2,
    Popup.addGroup " Play " st = Popup.Returned st1
    /\ Popup.removeGroup (JsString.trim " Play ") st1 = Popup.Returned st2
    /\ Popup.groups st2 = Popup.groups st
    /\ Popup.children st2 = Popup.children st
    /\ Popup.mirrored st2.
Proof.
  apply (addGroup_then_removeGroup " Play "
           (Popup.onDOMContentLoaded [mkGroup "Work" ["x.com"] true true]
                                     Popup.initial)).
  - exact opened_with_Work_displayed.
  - discriminate.
  - reflexivity.
Defined.

Lemma removeGroup_found_witness :
  let st := Popup.stateOf
              (Popup.addGroup "Home"
                 (Popup.stateOf (Popup.addGroup "Work" Popup.initial))) in
  Popup.groups (Popup.stateOf (Popup.removeGroup "Work" st))
  = [] ++ [mkGroup "Home" [] true true].
Proof.
  apply (removeGroup_found
           (Popup.stateOf
              (Popup.addGroup "Home"
                 (Popup.stateOf (Popup.addGroup "Work" Popup.initial))))
           "Work" [] [mkGroup "Home" [] true true] (mkGroup "Work" [] true true));
    reflexivity.
Defined.

(** ** Validated input *)

Lemma forallb_no_dot (p : ascii -> bool) (s : string) :
  p "."%char = false -> JsString.forallb p s = true -> dotFree s.
Proof.
  intros Hp. unfold dotFree. induction s as [|c s IH]; simpl; [reflexivity|].
  intros H. apply andb_true_iff in H as [Hc Hs]. rewrite (IH Hs), orb_false_r.
  unfold dotChar. destruct (Ascii.eqb_spec c "."); [congruence | reflexivity].
Qed.

Lemma isLabel_dotFree (l : string) : isLabel l -> dotFree l.
Proof. intros [_ H]. now apply (forallb_no_dot labelChar). Qed.

Lemma isTld_dotFree (t : string) : isTld t -> dotFree t.
Proof. intros [H _]. now apply (forallb_no_dot tldChar). Qed.

(** A hostname of the domain shape ends in a label, a dot and the
    top-level segment; the base URL is made of these two. *)
Lemma valid_base (newURL : string -> option URL) (raw : string) :
  isValidUrl newURL raw = true ->
  exists l tld,
    isLabel l /\ isTld tld
    /\ getBaseUrl newURL raw = Some (l ++ "." ++ tld)%string.
Proof.
  unfold isValidUrl, getBaseUrl.
  destruct (newURL (withScheme raw)) as [url|]; [|discriminate].
  cbv zeta. intros H. apply test_domainPattern in H.
  destruct H as (labels & tld & Hne & Hall & Htld & Hhost).
  destruct (exists_last Hne) as (front & l & ->).
  apply Forall_app in Hall as [Hfront Hl]. inversion Hl as [|? ? Hlabel _]; subst.
  exists l, tld. split; [exact Hlabel|]. split; [exact Htld|].
  rewrite Hhost, <- app_assoc. cbn [app].
  rewrite split_join.
  - now rewrite sliceFrom_last_two.
  - destruct front; discriminate.
  - apply Forall_app. split.
    + eapply Forall_impl; [|exact Hfront]. apply isLabel_dotFree.
    + repeat constructor; [now apply isLabel_dotFree | now apply isTld_dotFree].
Qed.

(** For an input that [isValidUrl] accepts, [getBaseUrl] does not raise;
    its result is a label, a dot and 2 to 11 letters, it is accepted by
    the domain pattern itself and does not begin with "*.". *)
Theorem validated_getBaseUrl (newURL : string -> option URL) (raw : string) :
  isValidUrl newURL raw = true ->
  exists l tld base,
    isLabel l /\ isTld tld /\ base = (l ++ "." ++ tld)%string
    /\ getBaseUrl newURL raw = Some base
    /\ RegExp.test domainPattern base = true
    /\ String.prefix "*." base = false.
Proof.
  intros H. destruct (valid_base newURL raw H) as (l & tld & Hl & Htld & Hbase).
  exists l, tld, (l ++ "." ++ tld)%string.
  split; [exact Hl|]. split; [exact Htld|]. split; [reflexivity|].
  split; [exact Hbase|]. split.
  - apply test_domainPattern. exists [l], tld.
    split; [discriminate|]. split; [now constructor|]. split; [exact Htld|].
    reflexivity.
  - destruct Hl as [Hne Hchars]. destruct l as [|c l]; [congruence|].
    simpl in Hchars. apply andb_true_iff in Hchars as [Hc _].
    apply prefix_head_differs. intros <-. discriminate Hc.
Qed.

Lemma validated_getBaseUrl_witness :
  exists l tld base,
    isLabel l /\ isTld tld /\ base = (l ++ "." ++ tld)%string
    /\ getBaseUrl UrlStandard.newURL "https://www.Reddit.com/r/all" = Some base
    /\ RegExp.test domainPattern base = true
    /\ String.prefix "*." base = false.
Proof.
  apply (validated_getBaseUrl UrlStandard.newURL "https://www.Reddit.com/r/all").
  reflexivity.
Defined.

(** What [addWebsiteToThisGroup] does with the input of the website
    field: nothing for a blank input; the message "Invalid URL", as an
    error, for an input that [isValidUrl] rejects, with groups and storage
    untouched; otherwise [addWebsiteToGroup] of the base URL, which is a
    label, a dot and a top-level segment: [getBaseUrl] does not raise
    here. *)
Theorem addWebsiteToThisGroup_cases (newURL : string -> option URL)
        (group : Group) (groupDiv : nat) (typed : string) (st : Popup.State) :
  let website := JsString.trim typed in
  let result := Popup.addWebsiteToThisGroup newURL group groupDiv typed st in
  (JsString.forallb JsString.isWhiteSpace typed = true -> result = Popup.Returned st)
  /\ (website <> "" -> isValidUrl newURL website = false ->
      result = Popup.Returned (Popup.showMessage "Invalid URL" true st))
  /\ (website <> "" -> isValidUrl newURL website = true ->
      exists l tld,
        isLabel l /\ isTld tld
        /\ result
           = Popup.addWebsiteToGroup (l ++ "." ++ tld)%string (title group) groupDiv st).
Proof.
  intros website result. subst result. unfold Popup.addWebsiteToThisGroup.
  fold website. split; [|split].
  - intros Hblank. apply trim_empty_iff in Hblank. unfold website.
    now rewrite Hblank.
  - intros Hne Hbad. apply String.eqb_neq in Hne. now rewrite Hne, Hbad.
  - intros Hne Hok. apply String.eqb_neq in Hne. rewrite Hne, Hok.
    destruct (valid_base newURL website Hok) as (l & tld & Hl & Htld & ->).
    exists l, tld. auto.
Qed.

Lemma addWebsiteToThisGroup_cases_witness :
  let g := mkGroup "Work" [] true true in
  let st := Popup.onDOMContentLoaded [g] Popup.initial in
  (JsString.forallb JsString.isWhiteSpace "  " = true ->
   Popup.addWebsiteToThisGroup UrlStandard.newURL g 0 "  " st = Popup.Returned st)
  /\ Popup.addWebsiteToThisGroup UrlStandard.newURL g 0 "not a url" st
     = Popup.Returned (Popup.showMessage "Invalid URL" true st)
  /\ exists l tld,
       isLabel l /\ isTld tld
       /\ Popup.addWebsiteToThisGroup UrlStandard.newURL g 0 " www.reddit.com/r " st
          = Popup.addWebsiteToGroup (l ++ "." ++ tld)%string (title g) 0 st.
Proof.
  intros g st. split; [|split].
  - apply (proj1 (addWebsiteToThisGroup_cases UrlStandard.newURL g 0 "  " st)).
  - apply (proj1 (proj2 (addWebsiteToThisGroup_cases UrlStandard.newURL g 0
                           "not a url" st))).
    + discriminate.
    + reflexivity.
  - apply (proj2 (proj2 (addWebsiteToThisGroup_cases UrlStandard.newURL g 0
                           " www.reddit.com/r " st))).
    + discriminate.
    + reflexivity.
Defined.

(** ** The base URL and the hostname *)

Lemma split_not_nil (s : string) (sep : ascii) : JsString.split s sep <> [].
Proof.
  destruct s as [|c s]; simpl; [discriminate|].
  destruct (Ascii.eqb c sep); [discriminate|].
  destruct (JsString.split s sep); discriminate.
Qed.

Lemma split_parts_dotFree (s : string) : Forall dotFree (JsString.split s ".").
Proof.
  induction s as [|c s IH]; simpl.
  - repeat constructor.
  - destruct (Ascii.eqb c ".") eqn:Hc.
    + constructor; [reflexivity | exact IH].
    + destruct (JsString.split s ".") as [|part parts]; [repeat constructor|].
      * unfold dotFree. simpl. unfold dotChar. now rewrite Hc.
      * inversion IH as [|? ? Hpart Hparts]; subst. constructor; [|exact Hparts].
        unfold dotFree in *. simpl. unfold dotChar at 1. now rewrite Hc, Hpart.
Qed.

Lemma join_head (c : ascii) (part : string) (parts : list string) :
  JsString.join (String c part :: parts) "." = String c (JsString.join (part :: parts) ".").
Proof. destruct parts; reflexivity. Qed.

(** Joining what [split] gave is the string again. *)
Lemma join_split (s : string) : JsString.join (JsString.split s ".") "." = s.
Proof.
  induction s as [|c s IH]; [reflexivity|]. simpl.
  destruct (Ascii.eqb_spec c ".") as [-> | Hc].
  - assert (Hne := split_not_nil s ".").
    destruct (JsString.split s ".") as [|part parts]; [congruence|].
    rewrite join_cons, IH. reflexivity.
  - assert (Hne := split_not_nil s ".").
    destruct (JsString.split s ".") as [|part parts]; [congruence|].
    now rewrite join_head, IH.
Qed.

Lemma join_app (front back : list string) :
  front <> [] -> back <> [] ->
  JsString.join (front ++ back) "."
  = (JsString.join front "." ++ "." ++ JsString.join back ".")%string.
Proof.
  intros Hf Hb. induction front as [|x front IH]; [congruence|].
  destruct front as [|y front].
  - destruct back as [|z back]; [congruence|]. reflexivity.
  - cbn [app] in *. rewrite !join_cons, IH by discriminate.
    now rewrite !append_assoc.
Qed.

Lemma sliceFrom_minus_two {A : Type} (arr : list A) :
  JsArray.sliceFrom arr (-2) = skipn (length arr - 2) arr.
Proof.
  unfold JsArray.sliceFrom, JsArray.relativeStart.
  change (-2 <? 0)%Z with true. cbv iota. f_equal. lia.
Qed.

(** The base URL is the last part of the hostname: the hostname itself
    when it has at most two labels, and otherwise what follows one of its
    dots; it never has more than two labels, and taking the base of a base
    gives the same. *)
Theorem getBaseUrl_suffix (newURL : string -> option URL) (raw : string) (url : URL) :
  newURL (withScheme raw) = Some url ->
  exists base,
    getBaseUrl newURL raw = Some base
    /\ (base = hostname url
        \/ exists front, hostname url = (front ++ "." ++ base)%string)
    /\ length (JsString.split base ".") <= 2
    /\ (length (JsString.split (hostname url) ".") <= 2 -> base = hostname url)
    /\ JsString.join (JsArray.sliceFrom (JsString.split base ".") (-2)) "." = base.
Proof.
  intros Hurl. unfold getBaseUrl. rewrite Hurl. cbv zeta.
  eexists. split; [reflexivity|].
  rewrite sliceFrom_minus_two.
  set (parts := JsString.split (hostname url) ".").
  set (k := length parts - 2).
  assert (Hparts : parts <> []) by apply split_not_nil.
  assert (Hfree : Forall dotFree parts) by apply split_parts_dotFree.
  assert (Hjoin : JsString.join parts "." = hostname url) by apply join_split.
  assert (Hlen : length (skipn k parts) <= 2) .
  { rewrite length_skipn. unfold k. generalize (length parts). intros n. lia. }
  assert (Htail : skipn k parts <> []).
  { intros E. apply (f_equal (@length string)) in E. rewrite length_skipn in E.
    unfold k in E. destruct parts as [|p ps]; [congruence|].
    revert E. simpl length. generalize (length ps). intros n E. lia. }
  assert (Hsplit : JsString.split (JsString.join (skipn k parts) ".") "."
                   = skipn k parts).
  { apply split_join; [exact Htail|].
    rewrite <- (firstn_skipn k parts) in Hfree. now apply Forall_app in Hfree. }
  split; [|split; [|split]].
  - destruct (firstn k parts) as [|x front] eqn:E.
    + left.
      transitivity (JsString.join (firstn k parts ++ skipn k parts) ".");
        [now rewrite E | now rewrite firstn_skipn].
    + right. exists (JsString.join (x :: front) ".").
      transitivity (JsString.join (firstn k parts ++ skipn k parts) ".");
        [now rewrite firstn_skipn|].
      rewrite E. apply join_app; [discriminate | exact Htail].
  - now rewrite Hsplit.
  - intros Hshort. fold parts in Hshort.
    replace k with 0; [exact Hjoin|].
    unfold k. revert Hshort. generalize (length parts). intros n Hn. lia.
  - rewrite Hsplit, sliceFrom_minus_two.
    replace (length (skipn k parts) - 2) with 0; [reflexivity|].
    revert Hlen. generalize (length (skipn k parts)). intros n Hn. lia.
Qed.

Lemma getBaseUrl_suffix_witness :
  exists base,
    getBaseUrl UrlStandard.newURL "a.b.example.co.uk" = Some base
    /\ (base = "a.b.example.co.uk"
        \/ exists front, "a.b.example.co.uk" = (front ++ "." ++ base)%string)
    /\ length (JsString.split base ".") <= 2
    /\ (length (JsString.split "a.b.example.co.uk" ".") <= 2 ->
        base = "a.b.example.co.uk")
    /\ JsString.join (JsArray.sliceFrom (JsString.split base ".") (-2)) "." = base.
Proof.
  apply (getBaseUrl_suffix UrlStandard.newURL "a.b.example.co.uk"
           (mkURL "http:" "a.b.example.co.uk" "")).
  reflexivity.
Defined.
